(** * Editable text support of a diagram item (gaphor/diagram/textelement.py)

    A shallow embedding of [TextElement] and [EditableTextSupport] and the
    properties of their layout pass, hit test and text formatting.

    Conventions of the model.
    - Coordinates and sizes are Python numbers (floats coming from the
      rendering backend, ints for the constants).  They are taken here as
      exact rationals [Q]: [/ 2.0] is exact division and rounding is not
      modelled.  What is stated of a computed number is therefore stated
      either as the expression the code evaluates, in its order of
      operations, or as an inequality; the stacking loop is also given over
      binary64 floats ([Binary64]), where sums added in another order need
      not be equal.
    - Python objects that are shared by reference (every [TextElement] is
      held both by [_texts] and by one list of [_text_groups]) live in an
      object store; a reference is an index into the store.  A reference
      always designates an object (see [well_formed]); the functions pass
      over an index that is outside the store.
    - A method is a function from the state before the call to the outcome
      (a value or a raised exception) and the state after the call.  A
      raised exception keeps whatever was mutated before it. *)

From Stdlib Require Import ZArith QArith Qminmax Qabs Lia Lqa String Ascii List DecimalString.
From Stdlib Require PrimFloat.
From stdpp Require Import base option list strings.

Local Open Scope string_scope.
Local Open Scope list_scope.

(* ================================================================== *)
(** * Outcomes of Python calls *)

Inductive Exc : Type :=
| AttributeError
| KeyError
| TypeError
| ValueError.

Inductive Result (A : Type) : Type :=
| Ok (a : A)
| Raise (e : Exc).

Arguments Ok {A} a.
Arguments Raise {A} e.

(* ================================================================== *)
(** * The [%] operator on strings

    [pattern % value] for the values a text element is given (an int, a
    string, or a tuple of those) and the conversions [%s], [%d] and [%%].
    Flags, widths, precisions, mapping keys and the other conversion types
    are outside this model: a pattern that uses one is answered like an
    unsupported format character. *)

Inductive Atom : Type :=
| PyInt (z : Z)
| PyStr (s : string).

Inductive PyValue : Type :=
| Single (a : Atom)
| Tuple (args : list Atom).

Definition str_of_int (z : Z) : string :=
  NilZero.string_of_int (Z.to_int z).

(** [str(a)] *)
Definition py_str (a : Atom) : string :=
  match a with
  | PyInt z => str_of_int z
  | PyStr s => s
  end.

(** The arguments a value supplies to the conversions: the items of a
    tuple, or the value itself. *)
Definition format_args (v : PyValue) : list Atom :=
  match v with
  | Single a => [a]
  | Tuple args => args
  end.

Definition prepend (pre : string) (r : Result (string * list Atom))
  : Result (string * list Atom) :=
  match r with
  | Ok (s, rest) => Ok ((pre ++ s)%string, rest)
  | Raise e => Raise e
  end.

(** One left-to-right pass over the pattern; the result is the formatted
    text and the arguments no conversion consumed. *)
Fixpoint format_from (p : string) (args : list Atom)
  : Result (string * list Atom) :=
  match p with
  | EmptyString => Ok ("", args)
  | String c p' =>
      if Ascii.eqb c "%" then
        match p' with
        | EmptyString => Raise ValueError               (* incomplete format *)
        | String k rest =>
            if Ascii.eqb k "%" then prepend "%" (format_from rest args)
            else
              match args with
              | [] => Raise TypeError                   (* not enough arguments *)
              | a :: args' =>
                  if Ascii.eqb k "s"
                  then prepend (py_str a) (format_from rest args')
                  else if Ascii.eqb k "d" then
                    match a with
                    | PyInt z => prepend (str_of_int z) (format_from rest args')
                    | PyStr _ => Raise TypeError        (* a number is required *)
                    end
                  else Raise ValueError                 (* unsupported character *)
              end
        end
      else prepend (String c "") (format_from p' args)
  end.

(** [pattern % value] *)
Definition py_mod (pattern : string) (value : PyValue) : Result string :=
  match format_from pattern (format_args value) with
  | Ok (s, []) => Ok s
  | Ok (_, _ :: _) => Raise TypeError                   (* not all arguments converted *)
  | Raise e => Raise e
  end.

(** The number of conversions of a pattern that consume an argument, when
    the pattern is within the modelled fragment. *)
Fixpoint conversions (p : string) : option nat :=
  match p with
  | EmptyString => Some 0%nat
  | String c p' =>
      if Ascii.eqb c "%" then
        match p' with
        | EmptyString => None
        | String k rest =>
            if Ascii.eqb k "%" then conversions rest
            else if Ascii.eqb k "s" || Ascii.eqb k "d" then S <$> conversions rest
            else None
        end
      else conversions p'
  end.

(* ================================================================== *)
(** * Styles and rectangles *)

(** Modelled from the spec: the alignment constants of
    [gaphor.diagram.style], which is not among the sources. *)
Inductive HAlign : Type := ALIGN_LEFT | ALIGN_CENTER | ALIGN_RIGHT.
Inductive VAlign : Type := ALIGN_TOP | ALIGN_MIDDLE | ALIGN_BOTTOM.

Definition Padding : Type := (Q * Q * Q * Q)%type.

(** Modelled from the spec: [gaphor.diagram.style.Style], which is not among
    the sources: a record of the three style attributes the layout reads;
    [update] overrides field by field. *)
Module Style.

Record t : Type := mk {
  text_padding : Padding;
  text_align : HAlign * VAlign;
  text_outside : bool
}.

End Style.

(** The [style] dictionary a host passes to [add_text]; an absent key is
    [None]. *)
Record StyleOptions : Type := {
  opt_text_padding : option Padding;
  opt_text_align : option (HAlign * VAlign);
  opt_text_outside : option bool;
  opt_text_align_group : option string
}.

(** [Style.update(style)] *)
Definition style_update (st : Style.t) (o : StyleOptions) : Style.t :=
  Style.mk (default (Style.text_padding st) (opt_text_padding o))
           (default (Style.text_align st) (opt_text_align o))
           (default (Style.text_outside st) (opt_text_outside o)).

(** Modelled from the spec: [gaphas.geometry.Rectangle], which is not among
    the sources: a mutable rectangle with the four attributes the code
    assigns. *)
Record Rectangle : Type := {
  x0 : Q;
  y0 : Q;
  width : Q;
  height : Q
}.

(* ================================================================== *)
(** * What the host and the rendering layer provide

    [EditableTextSupport] is mixed into a diagram item and draws through a
    rendering context.  The functions below are not part of the sources:
    they are the capabilities the code calls, over an abstract state of the
    host ([World]: the item, its subject and whatever the visibility
    closures read) and an abstract drawing surface ([Cairo]). *)

(** A reference to a text element object: its index in the object store. *)
Abbreviation ref := nat (only parsing).

Class Host : Type := {
  World : Type;
  Cairo : Type;
  (** [gaphas.util.text_extents(cr, text, multiline=True)] *)
  text_extents : Cairo -> string -> Q * Q;
  (** [self.text_align(extents, align, padding, outside)] *)
  text_align : World -> Q * Q -> HAlign * VAlign -> Padding -> bool -> Q * Q;
  (** [gaphas.geometry.distance_rectangle_point(rect, point)] *)
  distance_rectangle_point : Rectangle -> Q * Q -> Q;
  (** the truth value of [self.subject] *)
  subject : World -> bool
}.

Section Model.
Context {host : Host}.

(* ================================================================== *)
(** * TextElement *)

Record TextElement : Type := {
  _bounds : Rectangle;
  _style : Style.t;
  attr : string;
  _text : string;
  when : option (World -> bool);
  _pattern : string
}.

(** [TextElement.__init__(attr, style, pattern, when)].  An omitted
    argument is [None].  An empty pattern is false in Python, like [None];
    so is an empty style dictionary, whose update would change nothing. *)
Definition TextElement__init__ (attr : string) (style : option StyleOptions)
    (pattern : option string) (when : option (World -> bool)) : TextElement :=
  let st := Style.mk (2, 2, 2, 2)%Q (ALIGN_CENTER, ALIGN_TOP) false in
  {| _bounds := {| x0 := 0; y0 := 0; width := 10; height := 0 |};
     _style := match style with
               | Some o => style_update st o
               | None => st
               end;
     attr := attr;
     _text := "";
     when := when;
     _pattern := match pattern with
                 | Some EmptyString => "%s"
                 | Some p => p
                 | None => "%s"
                 end |}.

(** [txt.display()]: the closure given as [when], or the default method. *)
Definition display (w : World) (txt : TextElement) : bool :=
  match when txt with
  | Some f => f w
  | None => true
  end.

Definition with_text (s : string) (txt : TextElement) : TextElement :=
  {| _bounds := _bounds txt; _style := _style txt; attr := attr txt;
     _text := s; when := when txt; _pattern := _pattern txt |}.

(** The four assignments [txt.bounds.x0 = ..., .y0 = ..., .width = ...,
    .height = ...]. *)
Definition with_bounds (b : Rectangle) (txt : TextElement) : TextElement :=
  {| _bounds := b; _style := _style txt; attr := attr txt;
     _text := _text txt; when := when txt; _pattern := _pattern txt |}.

(** [txt.text = value], that is [TextElement._set_text]. *)
Definition _set_text (value : PyValue) (txt : TextElement)
  : Result unit * TextElement :=
  match py_mod (_pattern txt) value with
  | Ok s => (Ok tt, with_text s txt)
  | Raise e => (Raise e, txt)
  end.

(* ================================================================== *)
(** * EditableTextSupport *)

(** A Python dictionary from group names ([None]: ungrouped) to lists of
    text elements, in insertion order. *)
Definition Groups : Type := list (option string * list ref).

Fixpoint dict_get (k : option string) (d : Groups) : option (list ref) :=
  match d with
  | [] => None
  | (k', v) :: d' => if decide (k = k') then Some v else dict_get k d'
  end.

(** [k in d] *)
Definition dict_contains (k : option string) (d : Groups) : bool :=
  match dict_get k d with
  | Some _ => true
  | None => false
  end.

(** [d[k] = v]: replaces the value of a present key, appends a new one. *)
Fixpoint dict_set (k : option string) (v : list ref) (d : Groups) : Groups :=
  match d with
  | [] => [(k, v)]
  | (k', v') :: d' =>
      if decide (k = k') then (k', v) :: d' else (k', v') :: dict_set k v d'
  end.

Record EditableTextSupport : Type := {
  (** the text element objects, by reference *)
  objects : list TextElement;
  _texts : list ref;
  _text_groups : Groups
}.

(** [EditableTextSupport.__init__] *)
Definition EditableTextSupport__init__ : EditableTextSupport :=
  {| objects := []; _texts := []; _text_groups := [(None, [])] |}.

(** [add_text(attr, style, pattern, when)]; returns the reference of the
    created element.  [style.get] on an omitted style is an attribute
    access on [None]. *)
Definition add_text (attr : string) (style : option StyleOptions)
    (pattern : option string) (when : option (World -> bool))
    (self : EditableTextSupport) : Result ref * EditableTextSupport :=
  let txt := TextElement__init__ attr style pattern when in
  let r := List.length (objects self) in
  let objs := objects self ++ [txt] in
  let texts := _texts self ++ [r] in
  match style with
  | None =>
      (Raise AttributeError,
       {| objects := objs; _texts := texts; _text_groups := _text_groups self |})
  | Some o =>
      let gname := opt_text_align_group o in
      let groups := if dict_contains gname (_text_groups self)
                    then _text_groups self
                    else dict_set gname [] (_text_groups self) in
      match dict_get gname groups with
      | Some group =>
          (Ok r, {| objects := objs; _texts := texts;
                    _text_groups := dict_set gname (group ++ [r]) groups |})
      | None =>
          (Raise KeyError,
           {| objects := objs; _texts := texts; _text_groups := groups |})
      end
  end.

(** [[txt for txt in group if txt.display()]], each element with its
    reference. *)
Definition displayable (w : World) (objs : list TextElement) (group : list ref)
  : list (ref * TextElement) :=
  omap (fun r => match objs !! r with
                 | Some txt => if display w txt then Some (r, txt) else None
                 | None => None
                 end) group.

(** [max(...)] of a sequence with first item [a], and [sum(...)]. *)
Definition py_max (a : Q) (l : list Q) : Q := fold_left Qmax l a.
Definition py_min (a : Q) (l : list Q) : Q := fold_left Qmin l a.
Definition py_sum (l : list Q) : Q := fold_left Qplus l 0%Q.

(** [map(max, extents, (15, 10))] *)
Definition floor_extents (extents : Q * Q) : Q * Q :=
  (Qmax (fst extents) 15, Qmax (snd extents) 10).

(** The stacking loop of [_align_text_group] over the displayable texts and
    their dimensions. *)
Fixpoint stack (x y bw : Q) (items : list (ref * (Q * Q))) (dy : Q)
    (objs : list TextElement) : list TextElement :=
  match items with
  | [] => objs
  | (r, (dw, dh)) :: items' =>
      let b := {| x0 := x + (bw - dw) / 2; y0 := y + dy;
                  width := dw; height := dh |}%Q in
      stack x y bw items' (dy + (dh + 3))%Q (alter (with_bounds b) r objs)
  end.

(** The extents of a group: maximum width and total height of the
    dimensions, the first of which is [d]. *)
Definition group_extents (d : Q * Q) (ds : list (Q * Q)) : Q * Q :=
  (py_max (fst d) (map fst ds), py_sum (map snd (d :: ds))).

(** [_align_text_group(context, group)] *)
Definition _align_text_group (w : World) (cr : Cairo) (group : list ref)
    (objs : list TextElement) : list TextElement :=
  let texts := displayable w objs group in
  match texts with
  | [] => objs
  | first :: others =>
      let measure := fun p : ref * TextElement => text_extents cr (_text (snd p)) in
      let dimensions := map measure texts in
      let extents := group_extents (measure first) (map measure others) in
      let '(bw, _) := floor_extents extents in
      let style := _style (snd first) in
      let '(x, y) := text_align w extents (Style.text_align style)
                       (Style.text_padding style) (Style.text_outside style) in
      stack x y bw (combine (map fst texts) dimensions) 0 objs
  end.

(** The first loop of [update]: the named groups, in the order of the
    dictionary's keys. *)
Fixpoint update_groups (w : World) (cr : Cairo) (d : Groups)
    (keys : list (option string)) (objs : list TextElement)
  : Result unit * list TextElement :=
  match keys with
  | [] => (Ok tt, objs)
  | None :: keys' => update_groups w cr d keys' objs
  | Some g :: keys' =>
      match dict_get (Some g) d with
      | Some group => update_groups w cr d keys' (_align_text_group w cr group objs)
      | None => (Raise KeyError, objs)
      end
  end.

(** The second loop of [update]: the ungrouped elements. *)
Fixpoint update_ungrouped (w : World) (cr : Cairo) (group : list ref)
    (objs : list TextElement) : list TextElement :=
  match group with
  | [] => objs
  | r :: group' =>
      match objs !! r with
      | Some txt =>
          if display w txt then
            let extents := floor_extents (text_extents cr (_text txt)) in
            let style := _style txt in
            let '(x, y) := text_align w extents (Style.text_align style)
                             (Style.text_padding style) (Style.text_outside style) in
            let b := {| x0 := x; y0 := y;
                        width := fst extents; height := snd extents |} in
            update_ungrouped w cr group' (alter (with_bounds b) r objs)
          else update_ungrouped w cr group' objs
      | None => update_ungrouped w cr group' objs
      end
  end.

Definition with_objects (objs : list TextElement) (self : EditableTextSupport)
  : EditableTextSupport :=
  {| objects := objs; _texts := _texts self; _text_groups := _text_groups self |}.

(** The rendering context of one pass. *)
Record DrawContext : Type := {
  cairo : Cairo;
  hovered : bool;
  focused : bool;
  draw_all : bool
}.

(** [update(context)] *)
Definition update (w : World) (context : DrawContext) (self : EditableTextSupport)
  : Result unit * EditableTextSupport :=
  let cr := cairo context in
  match update_groups w cr (_text_groups self) (map fst (_text_groups self))
          (objects self) with
  | (Ok _, objs) =>
      match dict_get None (_text_groups self) with
      | Some group => (Ok tt, with_objects (update_ungrouped w cr group objs) self)
      | None => (Raise KeyError, with_objects objs self)
      end
  | (Raise e, objs) => (Raise e, with_objects objs self)
  end.

(** The distances [point] collects after the initial [10000.0]. *)
Definition distances (w : World) (pos : Q * Q) (objs : list TextElement)
    (texts : list ref) : list Q :=
  omap (fun r => match objs !! r with
                 | Some txt =>
                     if display w txt
                     then Some (distance_rectangle_point (_bounds txt) pos)
                     else None
                 | None => None
                 end) texts.

(** [point(x, y)] *)
Definition point (w : World) (x y : Q) (self : EditableTextSupport)
  : Result Q * EditableTextSupport :=
  (Ok (py_min 10000 (distances w (x, y) (objects self) (_texts self))), self).

(** What [draw] asks of the drawing surface. *)
Inductive CairoOp : Type :=
| text_multiline (x y : Q) (text : string)
| set_line_width (lw : Q)
| rectangle (x y w h : Q)
| stroke.

Definition draw_text (w : World) (context : DrawContext) (txt : TextElement)
  : list CairoOp :=
  if display w txt then
    let bounds := _bounds txt in
    (if subject w then [text_multiline (x0 bounds) (y0 bounds) (_text txt)] else [])
    ++ (if hovered context || focused context || draw_all context
        then [set_line_width (1 # 2);
              rectangle (x0 bounds) (y0 bounds) (width bounds) (height bounds);
              stroke]
        else [])
  else [].

(** [draw(context)]; the value is the sequence of drawing operations. *)
Definition draw (w : World) (context : DrawContext) (self : EditableTextSupport)
  : Result (list CairoOp) * EditableTextSupport :=
  (Ok (concat (omap (fun r => draw_text w context <$> objects self !! r)
                 (_texts self))),
   self).

(* ================================================================== *)
(** * The layout pass seen as writes to bounds

    What [update] does to the object store is a sequence of assignments of
    bounds.  The functions below compute that sequence from the store the
    pass starts with; they follow the loops of the code and are related to
    it by the lemmas [align_text_group_writes], [update_groups_writes] and
    [update_ungrouped_writes]. *)

Definition write : Type := (ref * Rectangle)%type.

Definition apply_writes (ws : list write) (objs : list TextElement)
  : list TextElement :=
  fold_left (fun o p => alter (with_bounds (snd p)) (fst p) o) ws objs.

(** The bounds a sequence of writes leaves in an element, if it writes to
    it at all. *)
Fixpoint last_write (r : ref) (ws : list write) : option Rectangle :=
  match ws with
  | [] => None
  | (r', b) :: ws' =>
      match last_write r ws' with
      | Some b' => Some b'
      | None => if decide (r' = r) then Some b else None
      end
  end.

Fixpoint stack_writes (x y bw : Q) (items : list (ref * (Q * Q))) (dy : Q)
  : list write :=
  match items with
  | [] => []
  | (r, (dw, dh)) :: items' =>
      (r, {| x0 := x + (bw - dw) / 2; y0 := y + dy;
             width := dw; height := dh |}%Q)
      :: stack_writes x y bw items' (dy + (dh + 3))%Q
  end.

Definition group_writes (w : World) (cr : Cairo) (group : list ref)
    (objs : list TextElement) : list write :=
  let texts := displayable w objs group in
  match texts with
  | [] => []
  | first :: others =>
      let measure := fun p : ref * TextElement => text_extents cr (_text (snd p)) in
      let dimensions := map measure texts in
      let extents := group_extents (measure first) (map measure others) in
      let '(bw, _) := floor_extents extents in
      let style := _style (snd first) in
      let '(x, y) := text_align w extents (Style.text_align style)
                       (Style.text_padding style) (Style.text_outside style) in
      stack_writes x y bw (combine (map fst texts) dimensions) 0
  end.

Fixpoint named_writes (w : World) (cr : Cairo) (d : Groups)
    (keys : list (option string)) (objs : list TextElement) : list write :=
  match keys with
  | [] => []
  | None :: keys' => named_writes w cr d keys' objs
  | Some g :: keys' =>
      match dict_get (Some g) d with
      | Some group => group_writes w cr group objs ++ named_writes w cr d keys' objs
      | None => []
      end
  end.

Fixpoint named_result (d : Groups) (keys : list (option string)) : Result unit :=
  match keys with
  | [] => Ok tt
  | None :: keys' => named_result d keys'
  | Some g :: keys' =>
      match dict_get (Some g) d with
      | Some _ => named_result d keys'
      | None => Raise KeyError
      end
  end.

Definition ungrouped_writes (w : World) (cr : Cairo) (group : list ref)
    (objs : list TextElement) : list write :=
  omap (fun r =>
          match objs !! r with
          | Some txt =>
              if display w txt then
                let extents := floor_extents (text_extents cr (_text txt)) in
                let style := _style txt in
                let '(x, y) := text_align w extents (Style.text_align style)
                                 (Style.text_padding style) (Style.text_outside style) in
                Some (r, {| x0 := x; y0 := y;
                            width := fst extents; height := snd extents |})
              else None
          | None => None
          end) group.

Definition layout_writes (w : World) (cr : Cairo) (d : Groups)
    (objs : list TextElement) : list write :=
  named_writes w cr d (map fst d) objs
  ++ ungrouped_writes w cr (default [] (dict_get None d)) objs.

(** An element without its bounds. *)
Definition forget (txt : TextElement) : TextElement :=
  with_bounds {| x0 := 0; y0 := 0; width := 0; height := 0 |} txt.

(** The invariant of the states [__init__] and [add_text] build: the keys of
    the dictionary are distinct, the ungrouped key is present, every element
    is in one list only and once, and every reference is live. *)
Definition well_formed (self : EditableTextSupport) : bool :=
  bool_decide (NoDup (map fst (_text_groups self)))
  && dict_contains None (_text_groups self)
  && bool_decide (NoDup (concat (map snd (_text_groups self))))
  && forallb (fun r => bool_decide (r < List.length (objects self))%nat)
       (concat (map snd (_text_groups self)) ++ _texts self).

End Model.

(* ================================================================== *)
(** * A concrete host, for evaluating the model

    An item 100 wide and 50 high.  The world is one flag a visibility
    closure may read (whether the guard of a flow is set); the drawing
    surface is its own text metric. *)

(** Modelled from the spec: the rectangle-to-point distance of
    [gaphas.geometry], which is not among the sources, taken as the
    horizontal plus the vertical gap between the point and the rectangle.
    Where one of the two gaps is zero, as at the inputs used below, this is
    the Euclidean distance to the rectangle. *)
Definition gap_distance (rect : Rectangle) (pos : Q * Q) : Q :=
  let '(px, py) := pos in
  let dx := (if Qlt_le_dec px (x0 rect) then x0 rect - px
             else if Qlt_le_dec (x0 rect + width rect) px
                  then px - x0 rect - width rect else 0)%Q in
  let dy := (if Qlt_le_dec py (y0 rect) then y0 rect - py
             else if Qlt_le_dec (y0 rect + height rect) py
                  then py - y0 rect - height rect else 0)%Q in
  (Qabs dx + Qabs dy)%Q.

Definition item_text_align (_ : bool) (extents : Q * Q) (align : HAlign * VAlign)
    (padding : Padding) (outside : bool) : Q * Q :=
  let '(w, h) := extents in
  let '(pt, pr, pb, pl) := padding in
  let x := (match fst align with
            | ALIGN_LEFT => pl
            | ALIGN_CENTER => (100 - w) / 2
            | ALIGN_RIGHT => 100 - w - pr
            end)%Q in
  let y := (match snd align with
            | ALIGN_TOP => if outside then - h - pt else pt
            | ALIGN_MIDDLE => (50 - h) / 2
            | ALIGN_BOTTOM => if outside then 50 + pb else 50 - h - pb
            end)%Q in
  (x, y).

Definition item_host : Host :=
  {| World := bool;
     Cairo := string -> Q * Q;
     text_extents := fun cr text => cr text;
     text_align := item_text_align;
     distance_rectangle_point := gap_distance;
     subject := fun _ => true |}.

(** A host whose alignment function answers with the extents it was given,
    so that the position of a laid out text shows what was passed. *)
Definition probe_host : Host :=
  {| World := bool;
     Cairo := string -> Q * Q;
     text_extents := fun cr text => cr text;
     text_align := fun _ extents _ _ _ => extents;
     distance_rectangle_point := gap_distance;
     subject := fun _ => true |}.

Definition in_group (g : string) : StyleOptions :=
  {| opt_text_padding := None; opt_text_align := None;
     opt_text_outside := None; opt_text_align_group := Some g |}.

Definition no_options : StyleOptions :=
  {| opt_text_padding := None; opt_text_align := None;
     opt_text_outside := None; opt_text_align_group := None |}.

(** Every text measures 10 by 8. *)
Definition small_font : string -> Q * Q := fun _ => (10, 8)%Q.

Definition plain_context (h : Host) (cr : @Cairo h) : @DrawContext h :=
  {| cairo := cr; hovered := false; focused := false; draw_all := false |}.

(** Three elements: an ungrouped guard shown only when the world's flag is
    set, and a stereotype and a name stacked in the group "name". *)
Definition item_texts : @EditableTextSupport item_host :=
  snd (add_text (host := item_host) "name" (Some (in_group "name")) None None
    (snd (add_text (host := item_host) "stereo" (Some (in_group "name")) None None
      (snd (add_text (host := item_host) "guard" (Some no_options) None
              (Some (fun w : bool => w)) EditableTextSupport__init__))))).

(** The effect of a successful [txt.text = s] on the element [r]. *)
Definition show {h : Host} (r : ref) (s : string) (self : @EditableTextSupport h)
  : @EditableTextSupport h :=
  with_objects (alter (with_text s) r (objects self)) self.

(** A metric in which "ClassName" measures 10 by 8 and "{abstract}" 14 by 6;
    any other text measures 20 by 4. *)
Definition scenario_font : string -> Q * Q :=
  fun s => if String.eqb s "ClassName" then (10, 8)%Q
           else if String.eqb s "{abstract}" then (14, 6)%Q
           else (20, 4)%Q.

(** A class name and its "{abstract}" marker in the group "name". *)
Definition class_texts (h : Host) : @EditableTextSupport h :=
  show 1 "{abstract}"
    (show 0 "ClassName"
       (snd (add_text "abstract" (Some (in_group "name")) None None
          (snd (add_text "name" (Some (in_group "name")) None None
             EditableTextSupport__init__))))).

(** The same with a third line in the group. *)
Definition three_texts (h : Host) : @EditableTextSupport h :=
  show 2 "from package"
    (snd (add_text "namespace" (Some (in_group "name")) None None (class_texts h))).

(** One ungrouped element measuring 10 by 8. *)
Definition single_text (h : Host) : @EditableTextSupport h :=
  show 0 "ClassName"
    (snd (add_text "name" (Some no_options) None None EditableTextSupport__init__)).

(** A group "guard" of two elements that are shown only when the flag of
    the world is set. *)
Definition guard_texts : @EditableTextSupport item_host :=
  snd (add_text (host := item_host) "guard.value" (Some (in_group "guard")) None
         (Some (fun w : bool => w))
    (snd (add_text (host := item_host) "guard.name" (Some (in_group "guard")) None
            (Some (fun w : bool => w)) EditableTextSupport__init__))).

(** An element with the pattern of the scenario. *)
Definition items_text : @TextElement item_host :=
  TextElement__init__ "count" None (Some "%s items") None.

(* ================================================================== *)
(** * The calls of a host

    The remaining entry points of the two classes, and the sequences of
    calls a host can make on one [EditableTextSupport]. *)

Section Calls.
Context {host : Host}.

(** [texts()] *)
Definition texts (self : EditableTextSupport)
  : Result (list ref) * EditableTextSupport :=
  (Ok (_texts self), self).

(** [txt.text = value] on the element a reference designates. *)
Definition set_text (r : ref) (value : PyValue) (self : EditableTextSupport)
  : Result unit * EditableTextSupport :=
  match objects self !! r with
  | Some txt =>
      (fst (_set_text value txt),
       with_objects (<[r := snd (_set_text value txt)]> (objects self)) self)
  | None => (Ok tt, self)
  end.

Inductive Call : Type :=
| call_add_text (attr : string) (style : option StyleOptions)
    (pattern : option string) (when : option (World -> bool))
| call_set_text (r : ref) (value : PyValue)
| call_update (w : World) (context : DrawContext)
| call_point (w : World) (x y : Q)
| call_draw (w : World) (context : DrawContext)
| call_texts.

(** The state a call leaves, whether it returns or raises. *)
Definition state_after (self : EditableTextSupport) (c : Call)
  : EditableTextSupport :=
  match c with
  | call_add_text attr style pattern when =>
      snd (add_text attr style pattern when self)
  | call_set_text r value => snd (set_text r value self)
  | call_update w context => snd (update w context self)
  | call_point w x y => snd (point w x y self)
  | call_draw w context => snd (draw w context self)
  | call_texts => snd (texts self)
  end.

(** The state after a sequence of calls on a new object. *)
Definition run (calls : list Call) : EditableTextSupport :=
  fold_left state_after calls EditableTextSupport__init__.

End Calls.

(** The number of [%s] conversions of a pattern whose only conversions are
    [%s] and [%%]. *)
Fixpoint str_conversions (p : string) : option nat :=
  match p with
  | EmptyString => Some 0%nat
  | String c p' =>
      if Ascii.eqb c "%" then
        match p' with
        | EmptyString => None
        | String k rest =>
            if Ascii.eqb k "%" then str_conversions rest
            else if Ascii.eqb k "s" then S <$> str_conversions rest
            else None
        end
      else str_conversions p'
  end.

(** The state [item_texts] with the keys of the dictionary of groups in the
    other order. *)
Definition item_texts_reordered : @EditableTextSupport item_host :=
  {| objects := objects item_texts;
     _texts := _texts item_texts;
     _text_groups := [(Some "name", [1; 2]%nat); (None, [0%nat])] |}.

(** A group "name" of three elements, the second of which is shown only
    when the flag of the world is set. *)
Definition mixed_texts : @EditableTextSupport item_host :=
  show 2 "ClassName"
    (show 0 "{abstract}"
       (snd (add_text (host := item_host) "name" (Some (in_group "name")) None None
          (snd (add_text (host := item_host) "stereotype" (Some (in_group "name"))
                  None (Some (fun w : bool => w))
             (snd (add_text (host := item_host) "abstract" (Some (in_group "name"))
                     None None EditableTextSupport__init__))))))).

(** Two ungrouped elements with the default style and no text yet. *)
Definition pair_texts : @EditableTextSupport item_host :=
  snd (add_text (host := item_host) "guard" (Some no_options) None None
    (snd (add_text (host := item_host) "name" (Some no_options) None None
       EditableTextSupport__init__))).

(* ================================================================== *)
(** * The stacking loop over a number type

    The loop of [_align_text_group] that stacks the displayable texts (the
    assignments to [x0], [y0], [width], [height] and [dy += dh + 3]), over
    any numbers with an addition, a subtraction and a halving: the bounds it
    assigns, in order.  At the rationals it is [stack_writes]
    ([stack_writes_bounds]); at binary64 floats it is the arithmetic the
    program runs. *)

Section StackLoop.
Context {N : Type} (add sub : N -> N -> N) (half : N -> N) (three : N).

Fixpoint stack_bounds (x y bw : N) (dimensions : list (N * N)) (dy : N)
  : list (N * N * N * N) :=
  match dimensions with
  | [] => []
  | (dw, dh) :: dimensions' =>
      (add x (half (sub bw dw)), add y dy, dw, dh)
      :: stack_bounds x y bw dimensions' (add dy (add dh three))
  end.

End StackLoop.

Module Binary64.
Import PrimFloat.
Local Open Scope float_scope.

Definition stack_bounds64 : float -> float -> float -> list (float * float) ->
                            float -> list (float * float * float * float) :=
  stack_bounds add sub (fun f => f / 2) 3.

(** [a.y0 + a.height + 3 == b.y0] on two bounds, with the program's
    addition and comparison. *)
Definition spaced (a b : float * float * float * float) : bool :=
  let '(_, ya, _, ha) := a in
  let '(_, yb, _, _) := b in
  eqb (ya + ha + 3) yb.

(** Three texts 10 wide and 5.1, 5.2 and 5.3 high (the nearest floats),
    stacked in a box 15 wide anchored at (45, 2). *)
Definition three_lines : list (float * float * float * float) :=
  stack_bounds64 45 2 15
    [(10, 0x1.4666666666666p+2); (10, 0x1.4cccccccccccdp+2);
     (10, 0x1.5333333333333p+2)] 0.

End Binary64.

(* ================================================================== *)
(** * Formatting *)

Lemma prepend_Ok pre r s rest :
  prepend pre r = Ok (s, rest) ->
  exists s', r = Ok (s', rest) /\ s = (pre ++ s')%string.
Proof.
  destruct r as [[s' rest']|e]; simpl; intros E; [|discriminate].
  injection E as <- <-. eauto.
Qed.

(** A pattern of the fragment that formats without error consumes exactly
    as many arguments as it has conversions. *)
Lemma format_from_consumes (k : nat) :
  forall p n args s rest,
    (String.length p <= k)%nat ->
    conversions p = Some n ->
    format_from p args = Ok (s, rest) ->
    List.length args = (n + List.length rest)%nat.
Proof.
  induction k as [|k IH]; intros p n args s rest Hlen Hc Hf.
  - destruct p; simpl in *; [|lia]. injection Hc as <-. injection Hf as _ <-. done.
  - destruct p as [|c p]; simpl in *.
    { injection Hc as <-. injection Hf as _ <-. done. }
    destruct (Ascii.eqb c "%").
    + destruct p as [|c' rest']; [discriminate|]. simpl in Hlen.
      destruct (Ascii.eqb c' "%").
      * apply prepend_Ok in Hf as (s' & Hf & _). eapply IH; eauto. lia.
      * destruct (Ascii.eqb c' "s") eqn:Es; simpl in Hc.
        { destruct (conversions rest') as [m|] eqn:Em; [|discriminate].
          injection Hc as <-. destruct args as [|a args']; [discriminate|].
          apply prepend_Ok in Hf as (s' & Hf & _).
          simpl. f_equal. eapply IH; eauto. lia. }
        destruct (Ascii.eqb c' "d") eqn:Ed; simpl in Hc; [|discriminate].
        destruct (conversions rest') as [m|] eqn:Em; [|discriminate].
        injection Hc as <-. destruct args as [|a args']; [discriminate|].
        destruct a as [z|?]; [|discriminate].
        apply prepend_Ok in Hf as (s' & Hf & _).
        simpl. f_equal. eapply IH; eauto. lia.
    + apply prepend_Ok in Hf as (s' & Hf & _). eapply IH; eauto. lia.
Qed.

(** Arity mismatch: with more or fewer arguments than conversions, [%]
    raises. *)
Lemma py_mod_arity pattern value n :
  conversions pattern = Some n ->
  n <> List.length (format_args value) ->
  exists e, py_mod pattern value = Raise e.
Proof.
  intros Hc Hn. unfold py_mod.
  destruct (format_from pattern (format_args value)) as [[s rest]|e] eqn:Hf; [|eauto].
  destruct rest as [|a rest]; [|eauto].
  exfalso. apply Hn.
  pose proof (format_from_consumes (String.length pattern) pattern n _ s []
                (Nat.le_refl _) Hc Hf) as H.
  simpl in H. lia.
Qed.

Section Properties.
Context {host : Host}.

(* ================================================================== *)
(** * TextElement: construction and the text setter *)

(** C8: a new text element has the bounds (0, 0, 10, 0); its style is the
    default (center, top), (2, 2, 2, 2), not outside, each field replaced by
    the supplied option when there is one; without a pattern it has the
    identity pattern "%s", and a non-empty pattern is kept; without a [when]
    closure it is always displayed, and with one it is displayed as the
    closure says; its text is empty. *)
Theorem text_element_init_defaults :
  forall (a : string) (style : option StyleOptions) (pattern : option string)
         (f : option (World -> bool)),
    let txt := TextElement__init__ a style pattern f in
    _bounds txt = {| x0 := 0; y0 := 0; width := 10; height := 0 |}
    /\ Style.text_align (_style txt)
       = default (ALIGN_CENTER, ALIGN_TOP) (style ≫= opt_text_align)
    /\ Style.text_padding (_style txt)
       = default (2, 2, 2, 2)%Q (style ≫= opt_text_padding)
    /\ Style.text_outside (_style txt)
       = default false (style ≫= opt_text_outside)
    /\ _pattern (TextElement__init__ a style None f) = "%s"
    /\ (forall c p, _pattern (TextElement__init__ a style (Some (String c p)) f)
                    = String c p)
    /\ (forall w, display w (TextElement__init__ a style pattern None) = true)
    /\ (forall w g, display w (TextElement__init__ a style pattern (Some g)) = g w)
    /\ _text txt = "" /\ attr txt = a.
Proof.
  intros a style pattern f txt. subst txt.
  destruct style as [o|]; simpl; repeat split; reflexivity.
Qed.

Lemma set_text_bounds (value : PyValue) (txt : TextElement) :
  _bounds (snd (_set_text value txt)) = _bounds txt.
Proof. unfold _set_text. by destruct (py_mod _ _). Qed.

(** C3: [txt.text = value] stores [pattern % value] as the text and leaves
    the bounds alone; when the formatting raises (as it does whenever the
    number of arguments differs from the number of conversions) the error
    reaches the caller and the element is exactly as before; with the
    pattern "%s items" the value 5 gives the text "5 items". *)
Theorem set_text_formats_or_keeps :
  forall (txt : TextElement) (value : PyValue),
    (forall s, py_mod (_pattern txt) value = Ok s ->
       fst (_set_text value txt) = Ok tt
       /\ _text (snd (_set_text value txt)) = s
       /\ _bounds (snd (_set_text value txt)) = _bounds txt)
    /\ (forall e, py_mod (_pattern txt) value = Raise e ->
          _set_text value txt = (Raise e, txt))
    /\ (forall n, conversions (_pattern txt) = Some n ->
          n <> List.length (format_args value) ->
          exists e, _set_text value txt = (Raise e, txt))
    /\ (_pattern txt = "%s items" ->
          _set_text (Single (PyInt 5)) txt = (Ok tt, with_text "5 items" txt)).
Proof.
  intros txt value. split; [|split; [|split]].
  - intros s Hs. unfold _set_text. rewrite Hs. by repeat split.
  - intros e He. unfold _set_text. by rewrite He.
  - intros n Hc Hn. destruct (py_mod_arity _ _ _ Hc Hn) as [e He].
    exists e. unfold _set_text. by rewrite He.
  - intros Hp. unfold _set_text. by rewrite Hp.
Qed.

(* ================================================================== *)
(** * add_text *)

Lemma dict_get_set_eq k v d : dict_get k (dict_set k v d) = Some v.
Proof.
  induction d as [|[k' v'] d IH]; simpl.
  - by rewrite decide_True.
  - destruct (decide (k = k')) as [->|Hne]; simpl.
    + by rewrite decide_True.
    + by rewrite decide_False.
Qed.

Lemma dict_get_set_ne k k' v d :
  k <> k' -> dict_get k' (dict_set k v d) = dict_get k' d.
Proof.
  intros Hne. induction d as [|[k0 v0] d IH]; simpl.
  - by rewrite decide_False.
  - destruct (decide (k = k0)) as [->|Hne0]; simpl.
    + by rewrite !decide_False.
    + by rewrite IH.
Qed.

(** With a style dictionary [add_text] succeeds: the element is created,
    appended to [_texts] and to the list of its group, which is created when
    the name is new; the other groups are as before. *)
Lemma add_text_with_style a o pattern f self :
  let r := List.length (objects self) in
  let gname := opt_text_align_group o in
  exists groups',
    add_text a (Some o) pattern f self
    = (Ok r, {| objects := objects self ++ [TextElement__init__ a (Some o) pattern f];
                _texts := _texts self ++ [r];
                _text_groups := groups' |})
    /\ dict_get gname groups'
       = Some (default [] (dict_get gname (_text_groups self)) ++ [r])
    /\ (forall k, k <> gname -> dict_get k groups' = dict_get k (_text_groups self)).
Proof.
  intros r gname. unfold add_text, dict_contains. fold r gname.
  destruct (dict_get gname (_text_groups self)) as [group|] eqn:Hg.
  - rewrite Hg. eexists. split; [reflexivity|]. split.
    + apply dict_get_set_eq.
    + intros k Hk. by apply dict_get_set_ne.
  - rewrite dict_get_set_eq. eexists. split; [reflexivity|]. split.
    + apply dict_get_set_eq.
    + intros k Hk. rewrite !dict_get_set_ne; done.
Qed.

(** C2 (as the code behaves): when the style argument is omitted,
    [add_text] raises AttributeError; by then the element has been created
    and appended to [_texts], and it is in no group. *)
Theorem add_text_without_style_raises :
  forall (a : string) (pattern : option string) (f : option (World -> bool))
         (self : EditableTextSupport),
    add_text a None pattern f self
    = (Raise AttributeError,
       {| objects := objects self ++ [TextElement__init__ a None pattern f];
          _texts := _texts self ++ [List.length (objects self)];
          _text_groups := _text_groups self |}).
Proof. reflexivity. Qed.

(* ================================================================== *)
(** * point: the hit test *)

Lemma Qmin_choice (a q : Q) : Qmin a q = a \/ Qmin a q = q.
Proof. unfold Qmin, GenericMinMax.gmin. destruct (a ?= q)%Q; auto. Qed.

Lemma Qmin_keep (a q : Q) : (a <= q)%Q -> Qmin a q = a.
Proof.
  intros Hle. unfold Qmin, GenericMinMax.gmin.
  destruct (a ?= q)%Q eqn:E; try reflexivity.
  apply Qgt_alt in E. exfalso. apply (Qlt_not_le _ _ E Hle).
Qed.

Lemma py_min_le_init (a : Q) (l : list Q) : (py_min a l <= a)%Q.
Proof.
  revert a. induction l as [|q l IH]; intros a; simpl.
  - apply Qle_refl.
  - eapply Qle_trans; [apply IH | apply Q.le_min_l].
Qed.

Lemma py_min_le_elem (a : Q) (l : list Q) (q : Q) :
  q ∈ l -> (py_min a l <= q)%Q.
Proof.
  revert a. induction l as [|q' l IH]; intros a Hin.
  - by apply elem_of_nil in Hin.
  - apply elem_of_cons in Hin as [->|Hin]; simpl.
    + eapply Qle_trans; [apply py_min_le_init | apply Q.le_min_r].
    + by apply IH.
Qed.

Lemma py_min_choice (a : Q) (l : list Q) : py_min a l = a \/ py_min a l ∈ l.
Proof.
  revert a. induction l as [|q l IH]; intros a; simpl; [by left|].
  destruct (IH (Qmin a q)) as [E|Hin].
  - rewrite E. destruct (Qmin_choice a q) as [->| ->]; [by left|].
    right. apply elem_of_cons. by left.
  - right. apply elem_of_cons. by right.
Qed.

Lemma py_min_keep (a : Q) (l : list Q) :
  (forall q, q ∈ l -> (a <= q)%Q) -> py_min a l = a.
Proof.
  revert a. induction l as [|q l IH]; intros a Hall; simpl; [done|].
  rewrite Qmin_keep by (apply Hall, elem_of_cons; by left).
  apply IH. intros q' Hq'. apply Hall, elem_of_cons. by right.
Qed.

(** The collected distances are those of exactly the displayed elements of
    [_texts]. *)
Lemma elem_of_distances w pos objs texts (q : Q) :
  q ∈ distances w pos objs texts <->
  exists r txt, r ∈ texts /\ objs !! r = Some txt /\ display w txt = true
                /\ q = distance_rectangle_point (_bounds txt) pos.
Proof.
  unfold distances. rewrite list_elem_of_omap. split.
  - intros (r & Hr & Hf). destruct (objs !! r) as [txt|] eqn:Hl; [|discriminate].
    destruct (display w txt) eqn:Hd; [|discriminate].
    injection Hf as <-. eauto 10.
  - intros (r & txt & Hr & Hl & Hd & ->). exists r. by rewrite Hl, Hd.
Qed.

(** C6 (amended): [point(x, y)] returns the minimum of 10000 and the
    distances from (x, y) to the bounds of exactly the displayed elements:
    the value is 10000 or the distance of a displayed element, it is at most
    10000 and at most the distance of every displayed element, it is 10000
    when no element is displayed, and the state is returned as it was. *)
Theorem point_min_of_sentinel_and_displayed :
  forall (w : World) (x y : Q) (self : EditableTextSupport),
  exists d : Q,
    point w x y self = (Ok d, self)
    /\ (d = 10000%Q
        \/ exists r txt, r ∈ _texts self /\ objects self !! r = Some txt
             /\ display w txt = true
             /\ d = distance_rectangle_point (_bounds txt) (x, y))
    /\ (d <= 10000)%Q
    /\ (forall r txt, r ∈ _texts self -> objects self !! r = Some txt ->
          display w txt = true ->
          (d <= distance_rectangle_point (_bounds txt) (x, y))%Q)
    /\ ((forall r txt, r ∈ _texts self -> objects self !! r = Some txt ->
           display w txt = false) -> d = 10000%Q).
Proof.
  intros w x y self. eexists. split; [reflexivity|].
  set (ds := distances w (x, y) (objects self) (_texts self)).
  repeat split.
  - destruct (py_min_choice 10000 ds) as [E|Hin]; [by left|right].
    by apply elem_of_distances in Hin.
  - apply py_min_le_init.
  - intros r txt Hr Hl Hd. apply py_min_le_elem, elem_of_distances. eauto 10.
  - intros Hnone. apply py_min_keep. intros q Hq.
    apply elem_of_distances in Hq as (r & txt & Hr & Hl & Hd & _).
    rewrite (Hnone r txt Hr Hl) in Hd. discriminate.
Qed.

(** C10: whatever the point and the state, [point] returns at most 10000;
    when every displayed element is at least 10000 away the result is
    10000 itself, not the distance of the nearest one. *)
Theorem point_capped_at_sentinel :
  forall (w : World) (x y : Q) (self : EditableTextSupport),
  exists d : Q,
    fst (point w x y self) = Ok d
    /\ (d <= 10000)%Q
    /\ ((forall r txt, r ∈ _texts self -> objects self !! r = Some txt ->
           display w txt = true ->
           (10000 <= distance_rectangle_point (_bounds txt) (x, y))%Q) ->
        d = 10000%Q).
Proof.
  intros w x y self. eexists. split; [reflexivity|]. split.
  - apply py_min_le_init.
  - intros Hfar. apply py_min_keep. intros q Hq.
    apply elem_of_distances in Hq as (r & txt & Hr & Hl & Hd & ->). eauto.
Qed.

(* ================================================================== *)
(** * The layout pass and its writes *)

(** The floored extents are at least (15, 10). *)
Lemma floor_extents_floor (extents : Q * Q) :
  (15 <= fst (floor_extents extents))%Q /\ (10 <= snd (floor_extents extents))%Q.
Proof. split; apply Q.le_max_r. Qed.

Lemma apply_writes_app (ws1 ws2 : list write) (objs : list TextElement) :
  apply_writes (ws1 ++ ws2) objs = apply_writes ws2 (apply_writes ws1 objs).
Proof. unfold apply_writes. apply fold_left_app. Qed.

Lemma stack_writes_spec x y bw items dy (objs : list TextElement) :
  stack x y bw items dy objs = apply_writes (stack_writes x y bw items dy) objs.
Proof.
  revert dy objs. induction items as [|[r [dw dh]] items IH]; intros dy objs.
  - reflexivity.
  - simpl. apply IH.
Qed.

Lemma align_text_group_writes w cr group (objs : list TextElement) :
  _align_text_group w cr group objs
  = apply_writes (group_writes w cr group objs) objs.
Proof.
  unfold _align_text_group, group_writes.
  destruct (displayable w objs group) as [|first others]; [reflexivity|].
  destruct (floor_extents _) as [bw bh].
  destruct (text_align _ _ _ _ _) as [x y].
  apply stack_writes_spec.
Qed.

Lemma forget_alter b (r : ref) (objs : list TextElement) :
  forget <$> alter (with_bounds b) r objs = forget <$> objs.
Proof.
  rewrite (list_fmap_alter forget (with_bounds b) id) by (by apply Forall_true).
  by apply list_alter_id.
Qed.

Lemma forget_apply_writes ws (objs : list TextElement) :
  forget <$> apply_writes ws objs = forget <$> objs.
Proof.
  revert objs. induction ws as [|[r b] ws IH]; intros objs; [reflexivity|].
  simpl. rewrite IH. apply forget_alter.
Qed.

Lemma forget_lookup (objs objs' : list TextElement) (r : ref) :
  forget <$> objs = forget <$> objs' ->
  forget <$> (objs !! r) = forget <$> (objs' !! r).
Proof. intros E. by rewrite <- !list_lookup_fmap, E. Qed.

Lemma forget_display w txt txt' :
  forget txt = forget txt' -> display w txt = display w txt'.
Proof. intros E. change (display w (forget txt) = display w (forget txt')). by rewrite E. Qed.

Lemma forget_text txt txt' : forget txt = forget txt' -> _text txt = _text txt'.
Proof. intros E. change (_text (forget txt) = _text (forget txt')). by rewrite E. Qed.

Lemma forget_style txt txt' : forget txt = forget txt' -> _style txt = _style txt'.
Proof. intros E. change (_style (forget txt) = _style (forget txt')). by rewrite E. Qed.

Lemma displayable_cons w (objs : list TextElement) r group :
  displayable w objs (r :: group)
  = match objs !! r with
    | Some txt =>
        if display w txt then (r, txt) :: displayable w objs group
        else displayable w objs group
    | None => displayable w objs group
    end.
Proof.
  unfold displayable. cbn [omap list_omap].
  destruct (objs !! r) as [txt|]; [|reflexivity].
  by destruct (display w txt).
Qed.

Lemma displayable_forget w (objs : list TextElement) group :
  displayable w (forget <$> objs) group
  = prod_map id forget <$> displayable w objs group.
Proof.
  induction group as [|r group IH]; [reflexivity|].
  rewrite !displayable_cons, list_lookup_fmap.
  destruct (objs !! r) as [txt|]; simpl; [|apply IH].
  change (display w (forget txt)) with (display w txt).
  destruct (display w txt); simpl; [|apply IH].
  by rewrite IH.
Qed.

Lemma group_writes_forget w cr group (objs : list TextElement) :
  group_writes w cr group (forget <$> objs) = group_writes w cr group objs.
Proof.
  unfold group_writes. rewrite displayable_forget.
  destruct (displayable w objs group) as [|[r0 t0] others]; [reflexivity|].
  rewrite !fmap_cons.
  change (prod_map id forget (r0, t0)) with (r0, forget t0).
  cbn [snd fst map]. change (_text (forget t0)) with (_text t0).
  change (_style (forget t0)) with (_style t0).
  assert (Hm : map (fun p : ref * TextElement => text_extents cr (_text (snd p)))
                 (prod_map id forget <$> others)
               = map (fun p : ref * TextElement => text_extents cr (_text (snd p)))
                 others).
  { induction others as [|[r t] others IH]; [reflexivity|].
    simpl. f_equal. exact IH. }
  assert (Hf : map fst (prod_map id forget <$> others) = map fst others).
  { clear Hm. induction others as [|[r t] others IH]; [reflexivity|].
    simpl. f_equal. exact IH. }
  rewrite Hm.
  replace ((prod_map id forget <$> others).*1) with (others.*1)
    by (symmetry; exact Hf).
  replace ((fun p : ref * TextElement => text_extents cr (_text (snd p)))
             <$> (prod_map id forget <$> others))
    with ((fun p : ref * TextElement => text_extents cr (_text (snd p))) <$> others)
    by (symmetry; exact Hm).
  reflexivity.
Qed.

Lemma group_writes_same w cr group (objs objs' : list TextElement) :
  forget <$> objs = forget <$> objs' ->
  group_writes w cr group objs = group_writes w cr group objs'.
Proof.
  intros E. by rewrite <- (group_writes_forget _ _ _ objs),
                    <- (group_writes_forget _ _ _ objs'), E.
Qed.

Lemma named_writes_same w cr d keys (objs objs' : list TextElement) :
  forget <$> objs = forget <$> objs' ->
  named_writes w cr d keys objs = named_writes w cr d keys objs'.
Proof.
  intros E. induction keys as [|[g|] keys IH]; simpl; [done| |done].
  destruct (dict_get (Some g) d); [|done].
  by rewrite IH, (group_writes_same _ _ _ _ _ E).
Qed.

Lemma ungrouped_writes_same w cr group (objs objs' : list TextElement) :
  forget <$> objs = forget <$> objs' ->
  ungrouped_writes w cr group objs = ungrouped_writes w cr group objs'.
Proof.
  intros E. unfold ungrouped_writes. apply list_omap_ext.
  induction group as [|r group IH]; constructor; [|done].
  pose proof (forget_lookup _ _ r E) as Hr.
  destruct (objs !! r) as [t|], (objs' !! r) as [t'|]; simpl in Hr;
    try discriminate; [|constructor].
  apply (inj Some) in Hr.
  rewrite (forget_display w _ _ Hr), (forget_text _ _ Hr), (forget_style _ _ Hr).
  destruct (display w t'); [|constructor].
  destruct (text_align _ _ _ _ _). by constructor.
Qed.

Lemma layout_writes_same w cr d (objs objs' : list TextElement) :
  forget <$> objs = forget <$> objs' ->
  layout_writes w cr d objs = layout_writes w cr d objs'.
Proof.
  intros E. unfold layout_writes.
  by rewrite (named_writes_same _ _ _ _ _ _ E), (ungrouped_writes_same _ _ _ _ _ E).
Qed.

Lemma update_groups_writes w cr d keys (objs0 objs : list TextElement) :
  forget <$> objs = forget <$> objs0 ->
  update_groups w cr d keys objs
  = (named_result d keys, apply_writes (named_writes w cr d keys objs0) objs).
Proof.
  revert objs. induction keys as [|[g|] keys IH]; intros objs E; simpl.
  - reflexivity.
  - destruct (dict_get (Some g) d) as [group|]; [|reflexivity].
    rewrite apply_writes_app, <- (group_writes_same _ _ _ _ _ E),
      <- align_text_group_writes.
    apply IH. by rewrite align_text_group_writes, forget_apply_writes.
  - by apply IH.
Qed.

Lemma update_ungrouped_writes w cr group (objs0 objs : list TextElement) :
  forget <$> objs = forget <$> objs0 ->
  update_ungrouped w cr group objs
  = apply_writes (ungrouped_writes w cr group objs0) objs.
Proof.
  revert objs. induction group as [|r group IH]; intros objs E; [reflexivity|].
  simpl. unfold ungrouped_writes. simpl. fold (ungrouped_writes w cr group objs0).
  pose proof (forget_lookup _ _ r E) as Hr.
  destruct (objs !! r) as [t|], (objs0 !! r) as [t0|]; simpl in Hr;
    try discriminate; [|by apply IH].
  apply (inj Some) in Hr.
  rewrite (forget_display w _ _ Hr), (forget_text _ _ Hr), (forget_style _ _ Hr).
  destruct (display w t0); [|by apply IH].
  destruct (text_align _ _ _ _ _) as [x y]. simpl.
  apply IH. by rewrite forget_alter.
Qed.

Lemma named_result_ok d keys :
  (forall k, k ∈ keys -> is_Some (dict_get k d)) -> named_result d keys = Ok tt.
Proof.
  induction keys as [|[g|] keys IH]; intros Hall; simpl; [done| |].
  - destruct (Hall (Some g)) as [group ->]; [apply elem_of_cons; by left|].
    apply IH. intros k Hk. apply Hall, elem_of_cons. by right.
  - apply IH. intros k Hk. apply Hall, elem_of_cons. by right.
Qed.

Lemma dict_get_keys d k : k ∈ map fst d -> is_Some (dict_get k d).
Proof.
  induction d as [|[k' v] d IH]; simpl; intros Hin.
  - by apply elem_of_nil in Hin.
  - destruct (decide (k = k')); [eauto|].
    apply elem_of_cons in Hin as [?|Hin]; [done|]. by apply IH.
Qed.

(** [update] as one sequence of writes: it raises only when the ungrouped
    key is missing from the dictionary. *)
Lemma update_writes w context self :
  let d := _text_groups self in
  let ws := layout_writes w (cairo context) d (objects self) in
  update w context self
  = match dict_get None d with
    | Some _ => (Ok tt, with_objects (apply_writes ws (objects self)) self)
    | None =>
        (Raise KeyError,
         with_objects
           (apply_writes (named_writes w (cairo context) d (map fst d) (objects self))
              (objects self)) self)
    end.
Proof.
  intros d ws. unfold update. fold d.
  rewrite (update_groups_writes _ _ _ _ (objects self)) by reflexivity.
  rewrite named_result_ok by apply dict_get_keys.
  destruct (dict_get None d) as [group|] eqn:Hg; [|reflexivity].
  subst ws. unfold layout_writes. fold d. rewrite Hg. simpl.
  rewrite apply_writes_app. f_equal. f_equal.
  apply update_ungrouped_writes, forget_apply_writes.
Qed.
(* ================================================================== *)
(** * What a sequence of writes leaves in the store *)

Lemma apply_writes_lookup (ws : list write) (objs : list TextElement) (r : ref) :
  apply_writes ws objs !! r
  = match last_write r ws with
    | Some b => with_bounds b <$> objs !! r
    | None => objs !! r
    end.
Proof.
  revert objs. induction ws as [|[r' b] ws IH]; intros objs; [reflexivity|].
  change (apply_writes ((r', b) :: ws) objs)
    with (apply_writes ws (alter (with_bounds b) r' objs)).
  rewrite IH. simpl. destruct (last_write r ws) as [b'|].
  - destruct (decide (r' = r)) as [->|Hne].
    + rewrite list_lookup_alter_eq. by destruct (objs !! r).
    + by rewrite list_lookup_alter_ne.
  - destruct (decide (r' = r)) as [->|Hne].
    + by rewrite list_lookup_alter_eq.
    + by rewrite list_lookup_alter_ne.
Qed.

Lemma apply_writes_idem (ws : list write) (objs : list TextElement) :
  apply_writes ws (apply_writes ws objs) = apply_writes ws objs.
Proof.
  apply list_eq. intros r. rewrite !apply_writes_lookup.
  destruct (last_write r ws) as [b|]; [|reflexivity].
  by destruct (objs !! r).
Qed.

Lemma last_write_Some (r : ref) (ws : list write) (b : Rectangle) :
  last_write r ws = Some b -> (r, b) ∈ ws.
Proof.
  induction ws as [|[r' b'] ws IH]; simpl; [discriminate|].
  destruct (last_write r ws) as [b0|].
  - intros E. injection E as <-. apply elem_of_cons. right. by apply IH.
  - destruct (decide (r' = r)) as [->|]; [|discriminate].
    intros E. injection E as <-. apply elem_of_cons. by left.
Qed.

Lemma last_write_None (r : ref) (ws : list write) :
  (forall b, (r, b) ∉ ws) -> last_write r ws = None.
Proof.
  intros Hnot. destruct (last_write r ws) as [b|] eqn:E; [|reflexivity].
  apply last_write_Some in E. by apply Hnot in E.
Qed.

Lemma last_write_app (r : ref) (ws1 ws2 : list write) :
  last_write r (ws1 ++ ws2)
  = match last_write r ws2 with
    | Some b => Some b
    | None => last_write r ws1
    end.
Proof.
  induction ws1 as [|[r' b'] ws1 IH]; simpl.
  - by destruct (last_write r ws2).
  - rewrite IH. by destruct (last_write r ws2).
Qed.

(** ** The targets of the writes are displayed elements *)

Lemma elem_of_displayable w (objs : list TextElement) group (r : ref) txt :
  (r, txt) ∈ displayable w objs group
  <-> r ∈ group /\ objs !! r = Some txt /\ display w txt = true.
Proof.
  unfold displayable. rewrite list_elem_of_omap. split.
  - intros (r' & Hr & Hf). destruct (objs !! r') as [t|] eqn:Hl; [|discriminate].
    destruct (display w t) eqn:Hd; [|discriminate].
    injection Hf as <- <-. done.
  - intros (Hr & Hl & Hd). exists r. by rewrite Hl, Hd.
Qed.

Lemma stack_writes_targets x y bw items dy (r : ref) (b : Rectangle) :
  (r, b) ∈ stack_writes x y bw items dy -> r ∈ map fst items.
Proof.
  revert dy. induction items as [|[r' [dw dh]] items IH]; intros dy; simpl.
  - intros H. by apply elem_of_nil in H.
  - intros H. apply elem_of_cons in H as [E|H]; apply elem_of_cons.
    + injection E as -> _. by left.
    + right. by eapply IH.
Qed.

Lemma combine_measure {A B C : Type} (f : A -> B) (g : A -> C) (l : list A) :
  combine (map f l) (map g l) = map (fun a => (f a, g a)) l.
Proof. induction l as [|a l IH]; [reflexivity|]. simpl. by rewrite IH. Qed.

Lemma group_writes_targets w cr group (objs : list TextElement) (r : ref) b :
  (r, b) ∈ group_writes w cr group objs ->
  r ∈ group /\ exists txt, objs !! r = Some txt /\ display w txt = true.
Proof.
  unfold group_writes.
  destruct (displayable w objs group) as [|first others] eqn:Hd.
  { intros H. by apply elem_of_nil in H. }
  destruct (floor_extents _) as [bw bh]. destruct (text_align _ _ _ _ _) as [x y].
  intros H. apply stack_writes_targets in H.
  rewrite combine_measure, map_map in H.
  apply list_elem_of_fmap in H as ([r' txt] & -> & Hin).
  rewrite <- Hd in Hin. apply elem_of_displayable in Hin as (? & ? & ?).
  eauto.
Qed.

Lemma named_writes_targets w cr d keys (objs : list TextElement) (r : ref) b :
  (r, b) ∈ named_writes w cr d keys objs ->
  (exists g group, Some g ∈ keys /\ dict_get (Some g) d = Some group /\ r ∈ group)
  /\ exists txt, objs !! r = Some txt /\ display w txt = true.
Proof.
  induction keys as [|[g|] keys IH]; simpl.
  - intros H. by apply elem_of_nil in H.
  - destruct (dict_get (Some g) d) as [group|] eqn:Hg.
    + intros H. apply elem_of_app in H as [H|H].
      * apply group_writes_targets in H as [Hr Hv]. split; [|done].
        exists g, group. split; [apply elem_of_cons; by left|done].
      * destruct (IH H) as [(g' & group' & Hk & Hg' & Hr) Hv]. split; [|done].
        exists g', group'. split; [apply elem_of_cons; by right|done].
    + intros H. by apply elem_of_nil in H.
  - intros H. destruct (IH H) as [(g' & group' & Hk & Hg' & Hr) Hv]. split; [|done].
    exists g', group'. split; [apply elem_of_cons; by right|done].
Qed.

Lemma ungrouped_writes_targets w cr group (objs : list TextElement) (r : ref) b :
  (r, b) ∈ ungrouped_writes w cr group objs ->
  r ∈ group /\ exists txt, objs !! r = Some txt /\ display w txt = true.
Proof.
  unfold ungrouped_writes. rewrite list_elem_of_omap.
  intros (r' & Hr & Hf). destruct (objs !! r') as [t|] eqn:Hl; [|discriminate].
  destruct (display w t) eqn:Hd; [|discriminate].
  destruct (text_align _ _ _ _ _). injection Hf as <- _. eauto.
Qed.

Lemma layout_writes_targets w cr d (objs : list TextElement) (r : ref) b :
  (r, b) ∈ layout_writes w cr d objs ->
  exists txt, objs !! r = Some txt /\ display w txt = true.
Proof.
  unfold layout_writes. intros H. apply elem_of_app in H as [H|H].
  - by apply named_writes_targets in H as [_ ?].
  - by apply ungrouped_writes_targets in H as [_ ?].
Qed.

(** The store after [update], whether it returns or raises: a sequence of
    writes to displayed elements, computed from the store without its
    bounds. *)
Lemma update_objects w context self :
  exists ws : (list TextElement -> list write),
    objects (snd (update w context self)) = apply_writes (ws (objects self)) (objects self)
    /\ _texts (snd (update w context self)) = _texts self
    /\ _text_groups (snd (update w context self)) = _text_groups self
    /\ (forall objs objs', forget <$> objs = forget <$> objs' -> ws objs = ws objs')
    /\ (forall r b, (r, b) ∈ ws (objects self) ->
          exists txt, objects self !! r = Some txt /\ display w txt = true).
Proof.
  rewrite update_writes. cbv zeta.
  destruct (dict_get None (_text_groups self)).
  - exists (layout_writes w (cairo context) (_text_groups self)).
    repeat split; [apply layout_writes_same|apply layout_writes_targets].
  - exists (named_writes w (cairo context) (_text_groups self)
              (map fst (_text_groups self))).
    repeat split; [apply named_writes_same|].
    intros r b H. by apply named_writes_targets in H as [_ ?].
Qed.

(** An element that is not displayed keeps its bounds through [update]. *)
Lemma update_keeps_hidden w context self (r : ref) :
  (forall txt, objects self !! r = Some txt -> display w txt = false) ->
  objects (snd (update w context self)) !! r = objects self !! r.
Proof.
  intros Hhid. destruct (update_objects w context self) as (ws & -> & _ & _ & _ & Ht).
  rewrite apply_writes_lookup, last_write_None; [done|].
  intros b Hin. destruct (Ht _ _ Hin) as (txt & Hl & Hd).
  rewrite (Hhid _ Hl) in Hd. discriminate.
Qed.

(** A second [update] in the same world with the same rendering context has
    the same outcome and leaves every element as the first call left it. *)
Lemma update_twice w context self :
  update w context (snd (update w context self)) = update w context self.
Proof.
  rewrite (update_writes w context self). cbv zeta.
  destruct (dict_get None (_text_groups self)) as [group|] eqn:Hg; cbn [snd].
  - rewrite update_writes. cbv zeta. cbn [with_objects _text_groups objects _texts].
    rewrite Hg. unfold with_objects. cbn [_text_groups objects _texts].
    rewrite (layout_writes_same _ _ _ _ (objects self)) by apply forget_apply_writes.
    by rewrite apply_writes_idem.
  - rewrite update_writes. cbv zeta. cbn [with_objects _text_groups objects _texts].
    rewrite Hg. unfold with_objects. cbn [_text_groups objects _texts].
    rewrite (named_writes_same _ _ _ _ _ (objects self)) by apply forget_apply_writes.
    by rewrite apply_writes_idem.
Qed.

(** ** The pass depends on the world and the rendering context only through
    what is displayed, the measured extents and the alignment results *)

Section Agree.
Variables (w w' : World) (cr cr' : Cairo) (objs : list TextElement).
Hypothesis Hdisplay :
  forall (r : ref) txt, objs !! r = Some txt -> display w' txt = display w txt.
Hypothesis Hextents : forall text, text_extents cr' text = text_extents cr text.
Hypothesis Halign :
  forall e a p o, text_align w' e a p o = text_align w e a p o.

Lemma displayable_agree group :
  displayable w' objs group = displayable w objs group.
Proof.
  induction group as [|r group IH]; [reflexivity|].
  rewrite !displayable_cons, IH.
  destruct (objs !! r) as [txt|] eqn:Hl; [|reflexivity].
  by rewrite (Hdisplay _ _ Hl).
Qed.

Lemma group_writes_agree group :
  group_writes w' cr' group objs = group_writes w cr group objs.
Proof.
  unfold group_writes. rewrite displayable_agree.
  destruct (displayable w objs group) as [|first others]; [reflexivity|].
  cbv zeta.
  rewrite !(map_ext (fun p : ref * TextElement => text_extents cr' (_text (snd p)))
              (fun p : ref * TextElement => text_extents cr (_text (snd p))))
    by (intros; apply Hextents).
  by rewrite Hextents, Halign.
Qed.

Lemma named_writes_agree d keys :
  named_writes w' cr' d keys objs = named_writes w cr d keys objs.
Proof.
  induction keys as [|[g|] keys IH]; simpl; [done| |done].
  destruct (dict_get (Some g) d); [|done].
  by rewrite IH, group_writes_agree.
Qed.

Lemma ungrouped_writes_agree group :
  ungrouped_writes w' cr' group objs = ungrouped_writes w cr group objs.
Proof.
  unfold ungrouped_writes. apply list_omap_ext.
  induction group as [|r group IH]; constructor; [|done].
  destruct (objs !! r) as [txt|] eqn:Hl; [|constructor].
  rewrite (Hdisplay _ _ Hl), Hextents, Halign.
  destruct (display w txt); [|constructor].
  destruct (text_align _ _ _ _ _). by constructor.
Qed.

Lemma layout_writes_agree d :
  layout_writes w' cr' d objs = layout_writes w cr d objs.
Proof.
  unfold layout_writes. by rewrite named_writes_agree, ungrouped_writes_agree.
Qed.

End Agree.

(** C7: a second [update] right after a first one, with the same measured
    extents, the same alignment results and the same elements displayed as
    in the first call, has the same outcome and leaves every element, hence
    all bounds, exactly as the first call left them. *)
Theorem update_idempotent :
  forall (w w' : World) (context context' : DrawContext)
         (self : EditableTextSupport),
    (forall (r : ref) txt,
        objects self !! r = Some txt -> display w' txt = display w txt) ->
    (forall text,
        text_extents (cairo context') text = text_extents (cairo context) text) ->
    (forall e a p o, text_align w' e a p o = text_align w e a p o) ->
    update w' context' (snd (update w context self)) = update w context self.
Proof.
  intros w w' context context' self Hdisplay Hextents Halign.
  rewrite <- (update_twice w context self) at 2.
  set (after := snd (update w context self)).
  assert (Hforget : forget <$> objects after = forget <$> objects self).
  { subst after. destruct (update_objects w context self) as (ws & -> & _).
    apply forget_apply_writes. }
  assert (Hdisplay' : forall (r : ref) txt,
             objects after !! r = Some txt -> display w' txt = display w txt).
  { intros r txt Hl. pose proof (forget_lookup _ _ r Hforget) as Hr.
    rewrite Hl in Hr. destruct (objects self !! r) as [txt0|] eqn:Hl0;
      simpl in Hr; [|discriminate].
    apply (inj Some) in Hr.
    rewrite (forget_display w' _ _ Hr), (forget_display w _ _ Hr). eauto. }
  rewrite (update_writes w' context' after), (update_writes w context after).
  cbv zeta.
  rewrite (layout_writes_agree w w' _ _ _ Hdisplay' Hextents Halign).
  by rewrite (named_writes_agree w w' _ _ _ Hdisplay' Hextents Halign).
Qed.

(** C9: [point] and [draw] return the state they were given; [update]
    leaves an element that is not displayed exactly as it was, and so every
    element of a named group none of whose elements is displayed. *)
Theorem bounds_written_only_by_layout :
  forall (w : World) (context : DrawContext) (self : EditableTextSupport),
    (forall x y, snd (point w x y self) = self)
    /\ snd (draw w context self) = self
    /\ (forall (r : ref) txt,
          objects self !! r = Some txt -> display w txt = false ->
          objects (snd (update w context self)) !! r = Some txt)
    /\ (forall g group,
          dict_get (Some g) (_text_groups self) = Some group ->
          displayable w (objects self) group = [] ->
          forall r : ref, r ∈ group ->
            objects (snd (update w context self)) !! r = objects self !! r).
Proof.
  intros w context self. split; [reflexivity|]. split; [reflexivity|]. split.
  - intros r txt Hl Hd. rewrite update_keeps_hidden; [done|].
    intros txt' Hl'. congruence.
  - intros g group Hg Hnone r Hr. apply update_keeps_hidden.
    intros txt Hl. destruct (display w txt) eqn:Hd; [|reflexivity].
    assert (Hin : (r, txt) ∈ displayable w (objects self) group)
      by by apply elem_of_displayable.
    rewrite Hnone in Hin. by apply elem_of_nil in Hin.
Qed.
(* ================================================================== *)
(** * Well-formed states: every element is laid out by its own group *)

Lemma dict_get_concat (d : Groups) k group (r : ref) :
  dict_get k d = Some group -> r ∈ group -> r ∈ concat (map snd d).
Proof.
  induction d as [|[k' v] d IH]; simpl; [discriminate|].
  intros Hg Hr. apply elem_of_app. destruct (decide (k = k')).
  - injection Hg as ->. by left.
  - right. by apply IH.
Qed.

Lemma dict_get_NoDup (d : Groups) k group :
  NoDup (concat (map snd d)) -> dict_get k d = Some group -> NoDup group.
Proof.
  induction d as [|[k' v] d IH]; simpl; [discriminate|].
  intros Hnd Hg. apply NoDup_app in Hnd as (Hv & _ & Hd).
  destruct (decide (k = k')).
  - by injection Hg as ->.
  - by apply IH.
Qed.

(** An element is in the list of one key only. *)
Lemma bucket_unique (d : Groups) k1 k2 g1 g2 (r : ref) :
  NoDup (concat (map snd d)) ->
  dict_get k1 d = Some g1 -> dict_get k2 d = Some g2 ->
  r ∈ g1 -> r ∈ g2 -> k1 = k2.
Proof.
  induction d as [|[k v] d IH]; simpl; [discriminate|].
  intros Hnd H1 H2 Hr1 Hr2. apply NoDup_app in Hnd as (_ & Hdisj & Hd).
  destruct (decide (k1 = k)) as [->|Hne1], (decide (k2 = k)) as [->|Hne2].
  - reflexivity.
  - injection H1 as ->. exfalso. eapply Hdisj; [done|]. by eapply dict_get_concat.
  - injection H2 as ->. exfalso. eapply Hdisj; [done|]. by eapply dict_get_concat.
  - by apply IH.
Qed.

Lemma well_formed_unpack self :
  well_formed self = true ->
  NoDup (map fst (_text_groups self))
  /\ is_Some (dict_get None (_text_groups self))
  /\ NoDup (concat (map snd (_text_groups self))).
Proof.
  unfold well_formed, dict_contains. intros H.
  apply andb_prop in H as [H _]. apply andb_prop in H as [H H3].
  apply andb_prop in H as [H1 H2].
  apply bool_decide_eq_true in H1, H3.
  destruct (dict_get None (_text_groups self)); [eauto|discriminate].
Qed.

Lemma named_writes_last w cr d keys (objs : list TextElement) g group (r : ref) :
  NoDup keys ->
  (forall k, k ∈ keys -> is_Some (dict_get k d)) ->
  NoDup (concat (map snd d)) ->
  Some g ∈ keys -> dict_get (Some g) d = Some group -> r ∈ group ->
  last_write r (named_writes w cr d keys objs)
  = last_write r (group_writes w cr group objs).
Proof.
  intros Hnd Hall Hcat Hin Hg Hr.
  induction keys as [|k keys IH]; [by apply elem_of_nil in Hin|].
  apply NoDup_cons in Hnd as [Hk Hnd].
  assert (Hall' : forall k', k' ∈ keys -> is_Some (dict_get k' d))
    by (intros k' Hk'; apply Hall, elem_of_cons; by right).
  destruct k as [g'|]; simpl.
  - destruct (Hall (Some g')) as [group' Hg']; [apply elem_of_cons; by left|].
    rewrite Hg', last_write_app.
    destruct (decide (g' = g)) as [->|Hne].
    + rewrite Hg in Hg'. injection Hg' as <-.
      rewrite (last_write_None r (named_writes _ _ _ _ _)); [done|].
      intros b Hb. apply named_writes_targets in Hb as [(g2 & group2 & Hk2 & Hg2 & Hr2) _].
      assert (E : Some g = Some g2) by by eapply (bucket_unique d).
      injection E as <-. done.
    + apply elem_of_cons in Hin as [E|Hin]; [congruence|].
      rewrite (IH Hnd Hall' Hin).
      destruct (last_write r (group_writes w cr group objs)); [done|].
      apply last_write_None. intros b Hb.
      apply group_writes_targets in Hb as [Hr' _].
      assert (Some g = Some g') by by eapply (bucket_unique d).
      congruence.
  - apply elem_of_cons in Hin as [E|Hin]; [discriminate|]. by apply IH.
Qed.

(** In a well-formed state the bounds [update] leaves in an element of a
    named group are those the pass over that group writes. *)
Lemma layout_writes_last w cr self g group (r : ref) :
  well_formed self = true ->
  dict_get (Some g) (_text_groups self) = Some group -> r ∈ group ->
  last_write r (layout_writes w cr (_text_groups self) (objects self))
  = last_write r (group_writes w cr group (objects self)).
Proof.
  intros Hwf Hg Hr. apply well_formed_unpack in Hwf as (Hkeys & [ug Hug] & Hcat).
  unfold layout_writes. rewrite last_write_app, Hug. simpl.
  rewrite (last_write_None r (ungrouped_writes _ _ _ _)).
  - eapply named_writes_last; eauto using dict_get_keys.
    apply list_elem_of_fmap. exists (Some g, group). split; [done|].
    clear -Hg. induction (_text_groups self) as [|[k v] d IH]; simpl in *; [discriminate|].
    destruct (decide (Some g = k)) as [<-|].
    + injection Hg as ->. apply elem_of_cons. by left.
    + apply elem_of_cons. right. by apply IH.
  - intros b Hb. apply ungrouped_writes_targets in Hb as [Hr' _].
    assert (Some g = None) by by eapply (bucket_unique (_text_groups self)).
    discriminate.
Qed.

Lemma update_well_formed w context self :
  well_formed self = true ->
  update w context self
  = (Ok tt,
     with_objects
       (apply_writes
          (layout_writes w (cairo context) (_text_groups self) (objects self))
          (objects self)) self).
Proof.
  intros Hwf. apply well_formed_unpack in Hwf as (_ & [ug Hug] & _).
  rewrite update_writes. cbv zeta. by rewrite Hug.
Qed.

Lemma NoDup_displayable w (objs : list TextElement) group :
  NoDup group -> NoDup (map fst (displayable w objs group)).
Proof.
  induction group as [|r group IH]; intros Hnd; [constructor|].
  apply NoDup_cons in Hnd as [Hr Hnd]. rewrite displayable_cons.
  destruct (objs !! r) as [txt|]; [|by apply IH].
  destruct (display w txt); [|by apply IH].
  simpl. apply NoDup_cons. split; [|by apply IH].
  intros Hin. apply list_elem_of_fmap in Hin as ([r' t'] & -> & Hin).
  apply elem_of_displayable in Hin as (? & _). done.
Qed.

(** The write of the stacking loop to an element: centred in the box width,
    with its own width and height. *)
Lemma stack_writes_last x y bw items dy (r : ref) dw dh :
  NoDup (map fst items) -> (r, (dw, dh)) ∈ items ->
  exists dy',
    last_write r (stack_writes x y bw items dy)
    = Some {| x0 := x + (bw - dw) / 2; y0 := y + dy';
              width := dw; height := dh |}%Q.
Proof.
  revert dy. induction items as [|[r1 [dw1 dh1]] items IH]; intros dy Hnd Hin.
  - by apply elem_of_nil in Hin.
  - simpl in Hnd. apply NoDup_cons in Hnd as [Hr1 Hnd]. simpl.
    apply elem_of_cons in Hin as [E|Hin].
    + injection E as <- <- <-.
      rewrite last_write_None.
      * rewrite decide_True by done. eauto.
      * intros b Hb. apply stack_writes_targets in Hb. done.
    + destruct (IH (dy + (dh1 + 3))%Q Hnd Hin) as [dy' ->]. eauto.
Qed.

(** C5: in a well-formed state, after [update] every displayed element of a
    named group has [x0 = boxX + (W - dw) / 2], where [W] is the floored
    width of the group box, [boxX] the x position the alignment function
    returned and [(dw, dh)] the element's own measured extents, and its
    width and height are [dw] and [dh]. *)
Theorem stacked_texts_centered :
  forall (w : World) (context : DrawContext) (self : EditableTextSupport)
         (g : string) (group : list ref)
         (first : ref * TextElement) (others : list (ref * TextElement)),
    well_formed self = true ->
    dict_get (Some g) (_text_groups self) = Some group ->
    displayable w (objects self) group = first :: others ->
    let measure := fun p : ref * TextElement =>
                     text_extents (cairo context) (_text (snd p)) in
    let extents := group_extents (measure first) (map measure others) in
    let W := fst (floor_extents extents) in
    let boxX := fst (text_align w extents (Style.text_align (_style (snd first)))
                       (Style.text_padding (_style (snd first)))
                       (Style.text_outside (_style (snd first)))) in
    fst (update w context self) = Ok tt
    /\ forall (r : ref) (txt : TextElement),
         (r, txt) ∈ first :: others ->
         exists txt',
           objects (snd (update w context self)) !! r = Some txt'
           /\ x0 (_bounds txt') = (boxX + (W - fst (measure (r, txt))) / 2)%Q
           /\ width (_bounds txt') = fst (measure (r, txt))
           /\ height (_bounds txt') = snd (measure (r, txt)).
Proof.
  intros w context self g group first others Hwf Hg Hdisp measure extents W boxX.
  rewrite (update_well_formed _ _ _ Hwf). split; [reflexivity|].
  intros r txt Hin. cbn [snd with_objects objects].
  rewrite <- Hdisp in Hin.
  pose proof Hin as Hin'. apply elem_of_displayable in Hin' as (Hr & Hl & Hd).
  rewrite apply_writes_lookup, (layout_writes_last _ _ _ _ _ _ Hwf Hg Hr), Hl.
  assert (Hnd : NoDup (map fst (displayable w (objects self) group))).
  { apply NoDup_displayable. apply well_formed_unpack in Hwf as (_ & _ & Hcat).
    by eapply dict_get_NoDup. }
  unfold group_writes. subst boxX W extents. rewrite Hdisp in *.
  fold measure.
  destruct (floor_extents _) as [bw bh].
  destruct (text_align _ _ _ _ _) as [x y]. cbn [fst].
  rewrite combine_measure.
  destruct (stack_writes_last x y bw
              (map (fun a => (fst a, measure a)) (first :: others)) 0 r
              (fst (measure (r, txt))) (snd (measure (r, txt)))) as [dy' ->].
  - by rewrite map_map.
  - apply list_elem_of_fmap. exists (r, txt). split; [|done].
    by destruct (measure (r, txt)).
  - eexists. split; [reflexivity|]. done.
Qed.

(** The stacking loop over the rationals assigns the bounds of
    [stack_bounds]. *)
Lemma stack_writes_bounds x y bw (items : list (ref * (Q * Q))) dy :
  map (fun p : write =>
         (x0 (snd p), y0 (snd p), width (snd p), height (snd p)))
      (stack_writes x y bw items dy)
  = stack_bounds Qplus Qminus (fun q => q / 2)%Q 3%Q x y bw (map snd items) dy.
Proof.
  revert dy. induction items as [|[r [dw dh]] items IH]; intros dy; [reflexivity|].
  simpl. by rewrite IH.
Qed.

(** C4 (amended): in a well-formed state, when the three elements a, b, c
    of a named group (in this order) are displayed, after [update], with y
    the y position the alignment function returned for the group, each
    element has its own measured height and [a.y0 = y + 0],
    [b.y0 = y + (0 + (a.height + 3))] and
    [c.y0 = y + ((0 + (a.height + 3)) + (b.height + 3))]: the sums the
    code evaluates, in its order. *)
Theorem stacked_texts_offsets :
  forall (w : World) (context : DrawContext) (self : EditableTextSupport)
         (g : string) (a b c : ref) (ta tb tc : TextElement),
    well_formed self = true ->
    dict_get (Some g) (_text_groups self) = Some [a; b; c] ->
    objects self !! a = Some ta ->
    objects self !! b = Some tb ->
    objects self !! c = Some tc ->
    display w ta = true -> display w tb = true -> display w tc = true ->
    let measure := fun t : TextElement => text_extents (cairo context) (_text t) in
    let extents := group_extents (measure ta) [measure tb; measure tc] in
    let boxY := snd (text_align w extents (Style.text_align (_style ta))
                       (Style.text_padding (_style ta))
                       (Style.text_outside (_style ta))) in
    exists ta' tb' tc',
      fst (update w context self) = Ok tt
      /\ objects (snd (update w context self)) !! a = Some ta'
      /\ objects (snd (update w context self)) !! b = Some tb'
      /\ objects (snd (update w context self)) !! c = Some tc'
      /\ height (_bounds ta') = snd (measure ta)
      /\ height (_bounds tb') = snd (measure tb)
      /\ height (_bounds tc') = snd (measure tc)
      /\ y0 (_bounds ta') = (boxY + 0)%Q
      /\ y0 (_bounds tb') = (boxY + (0 + (height (_bounds ta') + 3)))%Q
      /\ y0 (_bounds tc')
         = (boxY + (0 + (height (_bounds ta') + 3)
                    + (height (_bounds tb') + 3)))%Q.
Proof.
  intros w context self g a b c ta tb tc Hwf Hg Ha Hb Hc Hda Hdb Hdc
         measure extents boxY.
  assert (Hnd : NoDup [a; b; c]).
  { apply well_formed_unpack in Hwf as (_ & _ & Hcat). by eapply dict_get_NoDup. }
  apply NoDup_cons in Hnd as [Hab Hnd]. apply NoDup_cons in Hnd as [Hbc _].
  assert (a <> b) by (intros ->; apply Hab, elem_of_cons; by left).
  assert (a <> c)
    by (intros ->; apply Hab, elem_of_cons; right; apply elem_of_cons; by left).
  assert (b <> c) by (intros ->; apply Hbc, elem_of_cons; by left).
  assert (Hdisp : displayable w (objects self) [a; b; c]
                  = [(a, ta); (b, tb); (c, tc)]).
  { rewrite !displayable_cons, Ha, Hb, Hc, Hda, Hdb, Hdc. reflexivity. }
  rewrite (update_well_formed _ _ _ Hwf). cbn [fst snd with_objects objects].
  rewrite !apply_writes_lookup.
  rewrite !(layout_writes_last _ _ _ _ _ _ Hwf Hg)
    by (repeat first [apply elem_of_cons; by left | apply elem_of_cons; right]).
  unfold group_writes. rewrite Hdisp. subst boxY extents.
  cbn [map fst snd combine]. fold (measure ta) (measure tb) (measure tc).
  destruct (floor_extents _) as [bw bh].
  destruct (text_align _ _ _ _ _) as [x y].
  destruct (measure ta) as [dwa dha], (measure tb) as [dwb dhb],
    (measure tc) as [dwc dhc].
  cbn [stack_writes last_write].
  repeat match goal with
         | |- context [decide (?p = ?q)] =>
             first [ rewrite (decide_True (P := p = q)) by congruence
                   | rewrite (decide_False (P := p = q)) by congruence ]
         end.
  rewrite Ha, Hb, Hc. cbn [fmap option_fmap option_map].
  do 3 eexists. split; [reflexivity|]. do 3 (split; [reflexivity|]).
  cbn [_bounds with_bounds y0 height snd]. repeat split; reflexivity.
Qed.
(* ================================================================== *)
(** * The invariant holds in every state the host can build *)

Lemma well_formed_spec self :
  well_formed self = true <->
  NoDup (map fst (_text_groups self))
  /\ is_Some (dict_get None (_text_groups self))
  /\ NoDup (concat (map snd (_text_groups self)))
  /\ (forall r : ref,
        r ∈ concat (map snd (_text_groups self)) ++ _texts self ->
        (r < List.length (objects self))%nat).
Proof.
  unfold well_formed, dict_contains.
  rewrite !andb_true_iff, !bool_decide_eq_true, forallb_forall.
  split.
  - intros [[[H1 H2] H3] H4]. repeat split; [done| |done|].
    + destruct (dict_get None (_text_groups self)); [eauto|discriminate].
    + intros r Hr. apply list_elem_of_In, H4, bool_decide_eq_true in Hr. done.
  - intros (H1 & [ug H2] & H3 & H4). repeat split; [done| |done|].
    + by rewrite H2.
    + intros r Hr. apply bool_decide_eq_true, H4, list_elem_of_In, Hr.
Qed.

Lemma init_well_formed : well_formed EditableTextSupport__init__ = true.
Proof. reflexivity. Qed.

Lemma dict_set_keys_present (d : Groups) k v group :
  dict_get k d = Some group -> map fst (dict_set k v d) = map fst d.
Proof.
  induction d as [|[k' v'] d IH]; simpl; [discriminate|].
  destruct (decide (k = k')) as [->|Hne]; simpl; [done|].
  intros Hg. by rewrite IH.
Qed.

Lemma dict_set_absent (d : Groups) k v :
  dict_get k d = None -> dict_set k v d = d ++ [(k, v)] /\ k ∉ map fst d.
Proof.
  induction d as [|[k' v'] d IH]; simpl.
  - intros _. split; [done|]. apply not_elem_of_nil.
  - destruct (decide (k = k')) as [->|Hne]; [discriminate|].
    intros Hg. destruct (IH Hg) as [-> Hk]. split; [done|].
    apply not_elem_of_cons. done.
Qed.

Lemma dict_set_append (d : Groups) k group (r : ref) :
  dict_get k d = Some group ->
  concat (map snd (dict_set k (group ++ [r]) d)) ≡ₚ r :: concat (map snd d).
Proof.
  induction d as [|[k' v'] d IH]; simpl; [discriminate|].
  destruct (decide (k = k')) as [->|Hne]; simpl.
  - intros E. injection E as ->.
    rewrite <- (assoc_L (++)). simpl.
    by rewrite <- Permutation_middle.
  - intros Hg. rewrite (IH Hg). by rewrite <- Permutation_middle.
Qed.

(** The last step of [add_text]: appending a fresh reference to the list
    of a present key. *)
Lemma append_well_formed (objs : list TextElement) txt texts (d : Groups) k group :
  NoDup (map fst d) ->
  is_Some (dict_get None d) ->
  NoDup (concat (map snd d)) ->
  (forall r : ref, r ∈ concat (map snd d) ++ texts -> (r < List.length objs)%nat) ->
  dict_get k d = Some group ->
  well_formed {| objects := objs ++ [txt];
                 _texts := texts ++ [List.length objs];
                 _text_groups := dict_set k (group ++ [List.length objs]) d |}
  = true.
Proof.
  intros Hkeys [ug Hug] Hcat Hlive Hg. apply well_formed_spec. simpl.
  rewrite (dict_set_keys_present _ _ _ _ Hg).
  split; [done|]. split; [|split].
  - destruct (decide (None = k)) as [<-|Hne].
    + rewrite dict_get_set_eq. eauto.
    + rewrite dict_get_set_ne by done. eauto.
  - rewrite (dict_set_append _ _ _ _ Hg). apply NoDup_cons. split; [|done].
    intros Hin. assert (List.length objs < List.length objs)%nat; [|lia].
    apply Hlive, elem_of_app. by left.
  - intros r. rewrite (dict_set_append _ _ _ _ Hg), length_app. simpl.
    intros Hr. apply elem_of_cons in Hr as [->|Hr]; [lia|].
    apply elem_of_app in Hr as [Hr|Hr].
    + assert (r < List.length objs)%nat; [|lia].
      apply Hlive, elem_of_app. by left.
    + apply elem_of_app in Hr as [Hr|Hr].
      * assert (r < List.length objs)%nat; [|lia].
        apply Hlive, elem_of_app. by right.
      * apply list_elem_of_singleton in Hr as ->. lia.
Qed.

(** [add_text] keeps the invariant, whether it returns or raises. *)
Lemma add_text_well_formed a style pattern f self :
  well_formed self = true ->
  well_formed (snd (add_text a style pattern f self)) = true.
Proof.
  intros Hwf. apply well_formed_spec in Hwf as (Hkeys & Hnone & Hcat & Hlive).
  destruct style as [o|]; cycle 1.
  { apply well_formed_spec. simpl. repeat split; try done.
    intros r Hr. rewrite length_app. simpl.
    rewrite (assoc_L (++)) in Hr. apply elem_of_app in Hr as [Hr|Hr].
    - apply Hlive in Hr. lia.
    - apply list_elem_of_singleton in Hr as ->. lia. }
  unfold add_text, dict_contains.
  destruct (dict_get (opt_text_align_group o) (_text_groups self))
    as [group|] eqn:Hg.
  - rewrite Hg. cbn [snd]. by apply append_well_formed.
  - rewrite dict_get_set_eq. cbn [snd].
    destruct (dict_set_absent _ _ [] Hg) as [Hset Hk].
    apply append_well_formed.
    + rewrite Hset, map_app. simpl. apply NoDup_app. split; [done|]. split.
      * intros k Hin Hk'. apply list_elem_of_singleton in Hk' as ->. done.
      * apply NoDup_singleton.
    + destruct Hnone as [ug Hug].
      destruct (decide (opt_text_align_group o = None)) as [E|Hne].
      * rewrite E in Hg. congruence.
      * rewrite dict_get_set_ne by done. eauto.
    + rewrite Hset, map_app, concat_app. simpl. by rewrite app_nil_r.
    + rewrite Hset, map_app, concat_app. simpl. by rewrite app_nil_r.
    + apply dict_get_set_eq.
Qed.

(** [update] keeps the invariant: it changes bounds only. *)
Lemma update_keeps_well_formed w context self :
  well_formed self = true ->
  well_formed (snd (update w context self)) = true.
Proof.
  intros Hwf. rewrite (update_well_formed _ _ _ Hwf). cbn [snd].
  apply well_formed_spec in Hwf as (H1 & H2 & H3 & H4).
  apply well_formed_spec. cbn [with_objects _text_groups _texts objects].
  repeat split; try done.
  intros r Hr.
  assert (E : List.length (apply_writes
                (layout_writes w (cairo context) (_text_groups self) (objects self))
                (objects self)) = List.length (objects self)).
  { rewrite <- (length_fmap forget), forget_apply_writes. apply length_fmap. }
  rewrite E. by apply H4.
Qed.

End Properties.

(* ================================================================== *)
(** * Further properties of the two classes *)

Section Coverage.
Context {host : Host}.

(** ** add_text *)

(** X1: with a style dictionary [add_text] returns the reference of the new
    element, which is the next index of the store; the element is appended
    to [_texts] and to the end of the list of its group; the list of a new
    group name starts empty and its key goes last in the dictionary; the
    lists of the other keys are as before. *)
Theorem add_text_appends_element :
  forall (a : string) (o : StyleOptions) (pattern : option string)
         (f : option (World -> bool)) (self : EditableTextSupport),
    let r := List.length (objects self) in
    let gname := opt_text_align_group o in
    let after := snd (add_text a (Some o) pattern f self) in
    fst (add_text a (Some o) pattern f self) = Ok r
    /\ objects after = objects self ++ [TextElement__init__ a (Some o) pattern f]
    /\ _texts after = _texts self ++ [r]
    /\ dict_get gname (_text_groups after)
       = Some (default [] (dict_get gname (_text_groups self)) ++ [r])
    /\ (forall k, k <> gname ->
          dict_get k (_text_groups after) = dict_get k (_text_groups self))
    /\ map fst (_text_groups after)
       = map fst (_text_groups self)
         ++ (if dict_contains gname (_text_groups self) then [] else [gname]).
Proof.
  intros a o pattern f self r gname after. subst after.
  unfold add_text, dict_contains. fold r gname.
  destruct (dict_get gname (_text_groups self)) as [group|] eqn:Hg.
  - rewrite Hg. cbn [fst snd objects _texts _text_groups default].
    repeat split.
    + apply dict_get_set_eq.
    + intros k Hk. by apply dict_get_set_ne.
    + rewrite (dict_set_keys_present _ _ _ _ Hg). by rewrite app_nil_r.
  - rewrite dict_get_set_eq. cbn [fst snd objects _texts _text_groups default].
    destruct (dict_set_absent _ _ [] Hg) as [Hset _].
    repeat split.
    + apply dict_get_set_eq.
    + intros k Hk. rewrite !dict_get_set_ne; done.
    + rewrite (dict_set_keys_present _ gname _ []) by apply dict_get_set_eq.
      by rewrite Hset, map_app.
Qed.

(** X2: [add_text] raises exactly when the style argument is omitted, and
    then it raises AttributeError; the lookup of the group after the
    membership test never raises KeyError. *)
Theorem add_text_raises_iff_no_style :
  forall (a : string) (style : option StyleOptions) (pattern : option string)
         (f : option (World -> bool)) (self : EditableTextSupport) (e : Exc),
    fst (add_text a style pattern f self) = Raise e
    <-> style = None /\ e = AttributeError.
Proof.
  intros a style pattern f self e. destruct style as [o|].
  - destruct (add_text_with_style a o pattern f self) as (groups' & -> & _).
    split; [discriminate|]. intros [? _]. discriminate.
  - simpl. split.
    + intros E. injection E as <-. done.
    + intros [_ ->]. reflexivity.
Qed.

(** ** update *)

Lemma forget_fields (txt txt' : TextElement) :
  forget txt' = forget txt ->
  attr txt' = attr txt /\ _text txt' = _text txt /\ _style txt' = _style txt
  /\ _pattern txt' = _pattern txt /\ when txt' = when txt.
Proof.
  intros E. repeat split.
  - change (attr (forget txt') = attr (forget txt)). by rewrite E.
  - change (_text (forget txt') = _text (forget txt)). by rewrite E.
  - change (_style (forget txt') = _style (forget txt)). by rewrite E.
  - change (_pattern (forget txt') = _pattern (forget txt)). by rewrite E.
  - change (when (forget txt') = when (forget txt)). by rewrite E.
Qed.

(** X4: [update], whether it returns or raises, changes nothing but bounds:
    [_texts] and the dictionary of groups are as before, the store has the
    same elements, and each element keeps its attribute name, text, style,
    pattern and visibility closure. *)
Theorem update_changes_bounds_only :
  forall (w : World) (context : DrawContext) (self : EditableTextSupport),
    let after := snd (update w context self) in
    _texts after = _texts self
    /\ _text_groups after = _text_groups self
    /\ List.length (objects after) = List.length (objects self)
    /\ forall (r : ref) (txt' : TextElement),
         objects after !! r = Some txt' ->
         exists txt,
           objects self !! r = Some txt
           /\ attr txt' = attr txt /\ _text txt' = _text txt
           /\ _style txt' = _style txt /\ _pattern txt' = _pattern txt
           /\ when txt' = when txt.
Proof.
  intros w context self after. subst after.
  destruct (update_objects w context self) as (ws & Hobjs & Htexts & Hgroups & _).
  assert (Hforget : forget <$> objects (snd (update w context self))
                    = forget <$> objects self)
    by (rewrite Hobjs; apply forget_apply_writes).
  split; [done|]. split; [done|]. split.
  - by rewrite <- (length_fmap forget), Hforget, length_fmap.
  - intros r txt' Hl. pose proof (forget_lookup _ _ r Hforget) as Hr.
    rewrite Hl in Hr. destruct (objects self !! r) as [txt|]; [|discriminate].
    simpl in Hr. apply (inj Some) in Hr. exists txt. split; [done|].
    by apply forget_fields.
Qed.

(** ** draw *)

Lemma elem_of_draw w context self (op : CairoOp) (ops : list CairoOp) :
  fst (draw w context self) = Ok ops ->
  op ∈ ops <->
  exists (r : ref) txt, r ∈ _texts self /\ objects self !! r = Some txt
                        /\ op ∈ draw_text w context txt.
Proof.
  unfold draw. cbn [fst]. intros E. injection E as <-.
  rewrite list_elem_of_In, in_concat. split.
  - intros (l & Hl & Hop). apply list_elem_of_In, list_elem_of_omap in Hl.
    destruct Hl as (r & Hr & Hf).
    destruct (objects self !! r) as [txt|] eqn:Hlook; [|discriminate].
    injection Hf as <-. exists r, txt.
    split; [done|]. split; [done|]. by apply list_elem_of_In.
  - intros (r & txt & Hr & Hlook & Hop). exists (draw_text w context txt).
    split; [|by apply list_elem_of_In].
    apply list_elem_of_In, list_elem_of_omap. exists r. by rewrite Hlook.
Qed.

Lemma draw_ops_displayed w context (objs : list TextElement) (texts : list ref) :
  concat (omap (fun r => draw_text w context <$> objs !! r) texts)
  = concat
      (map (fun txt =>
              (if subject w
               then [text_multiline (x0 (_bounds txt)) (y0 (_bounds txt)) (_text txt)]
               else [])
              ++ (if hovered context || focused context || draw_all context
                  then [set_line_width (1 # 2);
                        rectangle (x0 (_bounds txt)) (y0 (_bounds txt))
                          (width (_bounds txt)) (height (_bounds txt));
                        stroke]
                  else []))
         (map snd (displayable w objs texts))).
Proof.
  induction texts as [|r texts IH]; [reflexivity|].
  rewrite displayable_cons. cbn [omap list_omap].
  destruct (objs !! r) as [txt|]; cbn [fmap option_fmap option_map]; [|exact IH].
  unfold draw_text at 1. destruct (display w txt).
  - cbn [map snd concat]. by rewrite IH.
  - cbn [concat app]. exact IH.
Qed.

(** X9: what [draw] paints.  Its operations are, for each displayed element
    of [_texts] in order, the element's text at the top left corner of its
    bounds if the item has a subject, followed, if the item is hovered,
    focused or drawn in full, by the line width 0.5, the rectangle of the
    bounds and a stroke; nothing else.  So a text is painted exactly for
    the displayed elements and only while there is a subject; an outline is
    set up, traced and stroked exactly for the displayed elements and only
    while the item is hovered, focused or drawn in full, with or without a
    subject; the state is left as it was. *)
Theorem draw_paints_displayed_texts :
  forall (w : World) (context : DrawContext) (self : EditableTextSupport),
  exists ops : list CairoOp,
    draw w context self = (Ok ops, self)
    /\ ops
       = concat
           (map (fun txt =>
                   (if subject w
                    then [text_multiline (x0 (_bounds txt)) (y0 (_bounds txt))
                            (_text txt)]
                    else [])
                   ++ (if hovered context || focused context || draw_all context
                       then [set_line_width (1 # 2);
                             rectangle (x0 (_bounds txt)) (y0 (_bounds txt))
                               (width (_bounds txt)) (height (_bounds txt));
                             stroke]
                       else []))
              (map snd (displayable w (objects self) (_texts self))))
    /\ (forall x y s,
          text_multiline x y s ∈ ops <->
          subject w = true
          /\ exists (r : ref) txt,
               r ∈ _texts self /\ objects self !! r = Some txt
               /\ display w txt = true
               /\ x = x0 (_bounds txt) /\ y = y0 (_bounds txt) /\ s = _text txt)
    /\ (forall x y wd ht,
          rectangle x y wd ht ∈ ops <->
          hovered context || focused context || draw_all context = true
          /\ exists (r : ref) txt,
               r ∈ _texts self /\ objects self !! r = Some txt
               /\ display w txt = true
               /\ x = x0 (_bounds txt) /\ y = y0 (_bounds txt)
               /\ wd = width (_bounds txt) /\ ht = height (_bounds txt))
    /\ (forall lw, set_line_width lw ∈ ops -> lw = (1 # 2)%Q)
    /\ (stroke ∈ ops <->
        hovered context || focused context || draw_all context = true
        /\ exists (r : ref) txt,
             r ∈ _texts self /\ objects self !! r = Some txt
             /\ display w txt = true)
    /\ (set_line_width (1 # 2) ∈ ops <-> stroke ∈ ops).
Proof.
  intros w context self. eexists. split; [reflexivity|].
  assert (Hstroke : forall op,
            op = stroke \/ op = set_line_width (1 # 2) ->
            op ∈ concat (omap (fun r => draw_text w context <$> objects self !! r)
                           (_texts self)) <->
            hovered context || focused context || draw_all context = true
            /\ exists (r : ref) txt,
                 r ∈ _texts self /\ objects self !! r = Some txt
                 /\ display w txt = true).
  { intros op Hop. rewrite (elem_of_draw w context self _ _ eq_refl). split.
    - intros (r & txt & Hr & Hl & Hin). unfold draw_text in Hin.
      destruct (display w txt) eqn:Hd; [|by apply elem_of_nil in Hin].
      apply elem_of_app in Hin as [Hin|Hin].
      + destruct (subject w); [|by apply elem_of_nil in Hin].
        apply list_elem_of_singleton in Hin. destruct Hop; congruence.
      + destruct (_ || _ || _); [|by apply elem_of_nil in Hin].
        split; [done|]. exists r, txt. done.
    - intros (Hs & r & txt & Hr & Hl & Hd). exists r, txt.
      split; [done|]. split; [done|].
      unfold draw_text. rewrite Hd, Hs. apply elem_of_app. right.
      destruct Hop as [-> | ->].
      + do 2 (apply elem_of_cons; right). apply elem_of_cons. by left.
      + apply elem_of_cons. by left. }
  split; [apply draw_ops_displayed|].
  split; [|split; [|split; [|split]]].
  - intros x y s. rewrite (elem_of_draw w context self _ _ eq_refl). split.
    + intros (r & txt & Hr & Hl & Hop). unfold draw_text in Hop.
      destruct (display w txt) eqn:Hd; [|by apply elem_of_nil in Hop].
      apply elem_of_app in Hop as [Hop|Hop].
      * destruct (subject w); [|by apply elem_of_nil in Hop].
        apply list_elem_of_singleton in Hop. injection Hop as -> -> ->.
        split; [done|]. exists r, txt. done.
      * destruct (_ || _ || _); [|by apply elem_of_nil in Hop].
        repeat (apply elem_of_cons in Hop as [Hop|Hop]; [discriminate|]).
        by apply elem_of_nil in Hop.
    + intros (Hs & r & txt & Hr & Hl & Hd & -> & -> & ->).
      exists r, txt. split; [done|]. split; [done|].
      unfold draw_text. rewrite Hd, Hs. apply elem_of_app. left.
      by apply list_elem_of_singleton.
  - intros x y wd ht. rewrite (elem_of_draw w context self _ _ eq_refl). split.
    + intros (r & txt & Hr & Hl & Hop). unfold draw_text in Hop.
      destruct (display w txt) eqn:Hd; [|by apply elem_of_nil in Hop].
      apply elem_of_app in Hop as [Hop|Hop].
      * destruct (subject w); [|by apply elem_of_nil in Hop].
        apply list_elem_of_singleton in Hop. discriminate.
      * destruct (_ || _ || _); [|by apply elem_of_nil in Hop].
        apply elem_of_cons in Hop as [Hop|Hop]; [discriminate|].
        apply elem_of_cons in Hop as [Hop|Hop].
        { injection Hop as -> -> -> ->. split; [done|]. exists r, txt. done. }
        apply elem_of_cons in Hop as [Hop|Hop]; [discriminate|].
        by apply elem_of_nil in Hop.
    + intros (Hs & r & txt & Hr & Hl & Hd & -> & -> & -> & ->).
      exists r, txt. split; [done|]. split; [done|].
      unfold draw_text. rewrite Hd, Hs. apply elem_of_app. right.
      apply elem_of_cons. right. apply elem_of_cons. by left.
  - intros lw. rewrite (elem_of_draw w context self _ _ eq_refl).
    intros (r & txt & Hr & Hl & Hop). unfold draw_text in Hop.
    destruct (display w txt); [|by apply elem_of_nil in Hop].
    apply elem_of_app in Hop as [Hop|Hop].
    + destruct (subject w); [|by apply elem_of_nil in Hop].
      apply list_elem_of_singleton in Hop. discriminate.
    + destruct (_ || _ || _); [|by apply elem_of_nil in Hop].
      apply elem_of_cons in Hop as [Hop|Hop]; [by injection Hop as ->|].
      repeat (apply elem_of_cons in Hop as [Hop|Hop]; [discriminate|]).
      by apply elem_of_nil in Hop.
  - apply Hstroke. by left.
  - rewrite (Hstroke stroke) by (by left).
    apply Hstroke. by right.
Qed.

(** ** The ungrouped pass *)

Lemma ungrouped_writes_cons w cr (r : ref) group (objs : list TextElement) :
  ungrouped_writes w cr (r :: group) objs
  = match objs !! r with
    | Some txt =>
        if display w txt then
          let extents := floor_extents (text_extents cr (_text txt)) in
          let pos := text_align w extents (Style.text_align (_style txt))
                       (Style.text_padding (_style txt))
                       (Style.text_outside (_style txt)) in
          (r, {| x0 := fst pos; y0 := snd pos;
                 width := fst extents; height := snd extents |})
          :: ungrouped_writes w cr group objs
        else ungrouped_writes w cr group objs
    | None => ungrouped_writes w cr group objs
    end.
Proof.
  unfold ungrouped_writes. cbn [omap list_omap].
  destruct (objs !! r) as [txt|]; [|reflexivity].
  destruct (display w txt); [|reflexivity].
  by destruct (text_align _ _ _ _ _).
Qed.

Lemma ungrouped_writes_last w cr group (objs : list TextElement) (r : ref) txt :
  NoDup group -> r ∈ group -> objs !! r = Some txt -> display w txt = true ->
  let extents := floor_extents (text_extents cr (_text txt)) in
  let pos := text_align w extents (Style.text_align (_style txt))
               (Style.text_padding (_style txt)) (Style.text_outside (_style txt)) in
  last_write r (ungrouped_writes w cr group objs)
  = Some {| x0 := fst pos; y0 := snd pos;
            width := fst extents; height := snd extents |}.
Proof.
  intros Hnd Hin Hl Hd extents pos.
  induction group as [|r1 group IH]; [by apply elem_of_nil in Hin|].
  apply NoDup_cons in Hnd as [Hr1 Hnd]. rewrite ungrouped_writes_cons.
  apply elem_of_cons in Hin as [->|Hin].
  - rewrite Hl, Hd. cbn [last_write].
    rewrite last_write_None, decide_True; [done|done|].
    intros b Hb. by apply ungrouped_writes_targets in Hb as [? _].
  - specialize (IH Hnd Hin).
    destruct (objs !! r1) as [t1|]; [|done].
    destruct (display w t1); [|done].
    cbn [last_write]. by rewrite IH.
Qed.

(** In a well-formed state the bounds [update] leaves in an element are
    those written by the pass over the one list that holds it. *)
Lemma layout_writes_last_of w cr self k group (r : ref) :
  well_formed self = true ->
  dict_get k (_text_groups self) = Some group -> r ∈ group ->
  last_write r (layout_writes w cr (_text_groups self) (objects self))
  = last_write r
      match k with
      | Some _ => group_writes w cr group (objects self)
      | None => ungrouped_writes w cr group (objects self)
      end.
Proof.
  intros Hwf Hg Hr. destruct k as [g|]; [by apply (layout_writes_last _ _ _ g)|].
  apply well_formed_unpack in Hwf as (_ & _ & Hcat).
  unfold layout_writes. rewrite last_write_app, Hg. cbn [default].
  destruct (last_write r (ungrouped_writes _ _ _ _)); [done|].
  apply last_write_None. intros b Hb.
  apply named_writes_targets in Hb as [(g & group' & _ & Hg' & Hr') _].
  assert (None = Some g) by by eapply (bucket_unique (_text_groups self)).
  discriminate.
Qed.

Lemma layout_writes_last_nowhere w cr (d : Groups) (objs : list TextElement)
    (r : ref) :
  r ∉ concat (map snd d) -> last_write r (layout_writes w cr d objs) = None.
Proof.
  intros Hnot. apply last_write_None. intros b Hb. apply Hnot.
  unfold layout_writes in Hb. apply elem_of_app in Hb as [Hb|Hb].
  - apply named_writes_targets in Hb as [(g & group & _ & Hg & Hr) _].
    by eapply dict_get_concat.
  - apply ungrouped_writes_targets in Hb as [Hr _].
    destruct (dict_get None d) as [ug|] eqn:Hug; [|by apply elem_of_nil in Hr].
    by eapply dict_get_concat.
Qed.

Lemma ungrouped_bounds_after_update w context self ungrouped (r : ref) txt :
  well_formed self = true ->
  dict_get None (_text_groups self) = Some ungrouped ->
  r ∈ ungrouped ->
  objects self !! r = Some txt ->
  display w txt = true ->
  let extents := floor_extents (text_extents (cairo context) (_text txt)) in
  let pos := text_align w extents (Style.text_align (_style txt))
               (Style.text_padding (_style txt))
               (Style.text_outside (_style txt)) in
  objects (snd (update w context self)) !! r
  = Some (with_bounds {| x0 := fst pos; y0 := snd pos;
                         width := fst extents; height := snd extents |} txt).
Proof.
  intros Hwf Hug Hr Hl Hd extents pos.
  rewrite (update_well_formed _ _ _ Hwf). cbn [snd with_objects objects].
  rewrite apply_writes_lookup, (layout_writes_last_of _ _ _ _ _ _ Hwf Hug Hr), Hl.
  by rewrite (ungrouped_writes_last _ _ _ _ _ _
                (dict_get_NoDup _ _ _
                   (proj2 (proj2 (well_formed_unpack _ Hwf))) Hug) Hr Hl Hd).
Qed.

(** X5: in a well-formed state, after [update] a displayed ungrouped
    element has its measured extents floored to (15, 10) as width and
    height, so at least 15 by 10, and stands where the alignment function
    puts a text of these floored extents with the element's own style. *)
Theorem ungrouped_text_floored :
  forall (w : World) (context : DrawContext) (self : EditableTextSupport)
         (ungrouped : list ref) (r : ref) (txt : TextElement),
    well_formed self = true ->
    dict_get None (_text_groups self) = Some ungrouped ->
    r ∈ ungrouped ->
    objects self !! r = Some txt ->
    display w txt = true ->
    let extents := floor_extents (text_extents (cairo context) (_text txt)) in
    let pos := text_align w extents (Style.text_align (_style txt))
                 (Style.text_padding (_style txt))
                 (Style.text_outside (_style txt)) in
    exists txt',
      objects (snd (update w context self)) !! r = Some txt'
      /\ _bounds txt' = {| x0 := fst pos; y0 := snd pos;
                           width := fst extents; height := snd extents |}
      /\ (15 <= width (_bounds txt'))%Q /\ (10 <= height (_bounds txt'))%Q.
Proof.
  intros w context self ungrouped r txt Hwf Hug Hr Hl Hd extents pos.
  rewrite (ungrouped_bounds_after_update _ _ _ _ _ _ Hwf Hug Hr Hl Hd).
  eexists. split; [reflexivity|]. split; [reflexivity|].
  cbn [_bounds with_bounds width height]. apply floor_extents_floor.
Qed.

(** X15: ungrouped elements are placed independently of each other and are
    not stacked: in a well-formed state, two displayed ungrouped elements
    with the same style whose texts have the same floored extents get the
    same bounds from [update]. *)
Theorem ungrouped_texts_not_stacked :
  forall (w : World) (context : DrawContext) (self : EditableTextSupport)
         (ungrouped : list ref) (r1 r2 : ref) (t1 t2 : TextElement),
    well_formed self = true ->
    dict_get None (_text_groups self) = Some ungrouped ->
    r1 ∈ ungrouped -> r2 ∈ ungrouped ->
    objects self !! r1 = Some t1 -> objects self !! r2 = Some t2 ->
    display w t1 = true -> display w t2 = true ->
    _style t1 = _style t2 ->
    floor_extents (text_extents (cairo context) (_text t1))
    = floor_extents (text_extents (cairo context) (_text t2)) ->
    exists t1' t2',
      objects (snd (update w context self)) !! r1 = Some t1'
      /\ objects (snd (update w context self)) !! r2 = Some t2'
      /\ _bounds t1' = _bounds t2'.
Proof.
  intros w context self ungrouped r1 r2 t1 t2 Hwf Hug Hr1 Hr2 Hl1 Hl2 Hd1 Hd2
         Hstyle Hext.
  rewrite (ungrouped_bounds_after_update _ _ _ _ _ _ Hwf Hug Hr1 Hl1 Hd1),
    (ungrouped_bounds_after_update _ _ _ _ _ _ Hwf Hug Hr2 Hl2 Hd2).
  do 2 eexists. split; [reflexivity|]. split; [reflexivity|].
  cbn [_bounds with_bounds]. by rewrite Hstyle, Hext.
Qed.

(** ** The stack of a group of any size *)

Lemma stack_writes_app x y bw (l1 l2 : list (ref * (Q * Q))) dy :
  stack_writes x y bw (l1 ++ l2) dy
  = stack_writes x y bw l1 dy
    ++ stack_writes x y bw l2
         (fold_left (fun d it => d + (snd (snd it) + 3))%Q l1 dy).
Proof.
  revert dy. induction l1 as [|[r [dw dh]] l1 IH]; intros dy; [reflexivity|].
  simpl. by rewrite IH.
Qed.

Lemma stack_writes_last_at x y bw (l1 l2 : list (ref * (Q * Q))) dy
    (r : ref) dw dh :
  NoDup (map fst (l1 ++ (r, (dw, dh)) :: l2)) ->
  last_write r (stack_writes x y bw (l1 ++ (r, (dw, dh)) :: l2) dy)
  = Some {| x0 := x + (bw - dw) / 2;
            y0 := y + fold_left (fun d it => d + (snd (snd it) + 3)) l1 dy;
            width := dw; height := dh |}%Q.
Proof.
  intros Hnd. rewrite map_app in Hnd. apply NoDup_app in Hnd as (_ & _ & Hnd).
  cbn [map fst] in Hnd. apply NoDup_cons in Hnd as [Hr _].
  rewrite stack_writes_app, last_write_app. cbn [stack_writes last_write].
  rewrite last_write_None, decide_True; [done|done|].
  intros ? Hin. by apply stack_writes_targets in Hin.
Qed.

Lemma fold_left_measured {A : Type} (F : A -> ref * (Q * Q)) (l : list A) (dy : Q) :
  fold_left (fun d it => d + (snd (snd it) + 3))%Q (map F l) dy
  = fold_left (fun d p => d + (snd (snd (F p)) + 3))%Q l dy.
Proof.
  revert dy. induction l as [|p l IH]; intros dy; [reflexivity|]. simpl. apply IH.
Qed.

(** X6: in a well-formed state, for two elements a and b of a named group
    that are displayed one after the other (elements that are not displayed
    may stand between them in the group, and the group may have any number
    of elements), after [update] a has its own measured height,
    [a.y0 = y + offset] and [b.y0 = y + (offset + (a.height + 3))], where y
    is the y position the alignment function returned for the group and
    [offset] is the running sum of the code, [dy + (height + 3)] added up
    from 0 over the displayed elements before a, in their order. *)
Theorem stacked_neighbours_spacing :
  forall (w : World) (context : DrawContext) (self : EditableTextSupport)
         (g : string) (group : list ref)
         (first : ref * TextElement) (others : list (ref * TextElement))
         (before after : list (ref * TextElement))
         (a b : ref) (ta tb : TextElement),
    well_formed self = true ->
    dict_get (Some g) (_text_groups self) = Some group ->
    displayable w (objects self) group = first :: others ->
    first :: others = before ++ (a, ta) :: (b, tb) :: after ->
    let measure := fun p : ref * TextElement =>
                     text_extents (cairo context) (_text (snd p)) in
    let extents := group_extents (measure first) (map measure others) in
    let boxY := snd (text_align w extents (Style.text_align (_style (snd first)))
                       (Style.text_padding (_style (snd first)))
                       (Style.text_outside (_style (snd first)))) in
    let offset := fold_left (fun d p => d + (snd (measure p) + 3))%Q before 0%Q in
    exists ta' tb',
      objects (snd (update w context self)) !! a = Some ta'
      /\ objects (snd (update w context self)) !! b = Some tb'
      /\ height (_bounds ta') = snd (measure (a, ta))
      /\ y0 (_bounds ta') = (boxY + offset)%Q
      /\ y0 (_bounds tb') = (boxY + (offset + (height (_bounds ta') + 3)))%Q.
Proof.
  intros w context self g group first others before after a b ta tb
         Hwf Hg Hdisp Hsplit measure extents boxY offset.
  assert (Hina : (a, ta) ∈ displayable w (objects self) group).
  { rewrite Hdisp, Hsplit. apply elem_of_app. right. apply elem_of_cons. by left. }
  assert (Hinb : (b, tb) ∈ displayable w (objects self) group).
  { rewrite Hdisp, Hsplit. apply elem_of_app. right. apply elem_of_cons. right.
    apply elem_of_cons. by left. }
  apply elem_of_displayable in Hina as (Hra & Hla & _).
  apply elem_of_displayable in Hinb as (Hrb & Hlb & _).
  assert (Hnd : NoDup (map fst (displayable w (objects self) group))).
  { apply NoDup_displayable. apply well_formed_unpack in Hwf as (_ & _ & Hcat).
    by eapply dict_get_NoDup. }
  rewrite (update_well_formed _ _ _ Hwf). cbn [snd with_objects objects].
  rewrite !apply_writes_lookup,
    (layout_writes_last _ _ _ _ _ _ Hwf Hg Hra),
    (layout_writes_last _ _ _ _ _ _ Hwf Hg Hrb), Hla, Hlb.
  unfold group_writes. rewrite Hdisp in *. subst boxY extents. fold measure.
  destruct (floor_extents _) as [bw bh].
  destruct (text_align _ _ _ _ _) as [x y]. cbn [snd].
  rewrite combine_measure. cbv beta.
  set (F := fun p : ref * TextElement => (fst p, measure p)).
  assert (Hnd' : NoDup (map fst (map F (first :: others)))).
  { rewrite map_map. exact Hnd. }
  rewrite Hsplit in *.
  destruct (measure (a, ta)) as [dwa dha] eqn:Ea.
  destruct (measure (b, tb)) as [dwb dhb] eqn:Eb.
  assert (Fa : F (a, ta) = (a, (dwa, dha))) by (unfold F; cbn [fst]; by rewrite Ea).
  assert (Fb : F (b, tb) = (b, (dwb, dhb))) by (unfold F; cbn [fst]; by rewrite Eb).
  assert (Ha : map F (before ++ (a, ta) :: (b, tb) :: after)
               = map F before ++ (a, (dwa, dha)) :: map F ((b, tb) :: after)).
  { rewrite map_app. cbn [map]. by rewrite Fa. }
  assert (Hb : map F (before ++ (a, ta) :: (b, tb) :: after)
               = map F (before ++ [(a, ta)]) ++ (b, (dwb, dhb)) :: map F after).
  { rewrite !map_app. cbn [map]. rewrite <- (assoc_L (++)). cbn [app].
    by rewrite Fb. }
  pose proof (stack_writes_last_at x y bw (map F before)
                (map F ((b, tb) :: after)) 0 a dwa dha) as La.
  rewrite <- Ha in La. specialize (La Hnd').
  pose proof (stack_writes_last_at x y bw (map F (before ++ [(a, ta)]))
                (map F after) 0 b dwb dhb) as Lb.
  rewrite <- Hb in Lb. specialize (Lb Hnd').
  do 2 eexists. rewrite La, Lb. split; [reflexivity|]. split; [reflexivity|].
  cbn [fmap option_fmap option_map _bounds with_bounds y0 height snd].
  rewrite !fold_left_measured, fold_left_app. cbn [fold_left F snd].
  subst offset. rewrite Ea. cbn [snd]. done.
Qed.

(** ** Elements that are not displayed *)

Lemma displayable_of_displayed w (objs : list TextElement) group :
  displayable w objs (map fst (displayable w objs group))
  = displayable w objs group.
Proof.
  induction group as [|r group IH]; [reflexivity|].
  rewrite displayable_cons.
  destruct (objs !! r) as [txt|] eqn:Hl; [|done].
  destruct (display w txt) eqn:Hd; [|done].
  cbn [map fst]. by rewrite displayable_cons, Hl, Hd, IH.
Qed.

(** X7: the elements of a group that are not displayed do not affect the
    others: aligning a group gives the same store as aligning the list of
    its displayed elements alone. *)
Theorem align_text_group_ignores_hidden :
  forall (w : World) (cr : Cairo) (group : list ref) (objs : list TextElement),
    _align_text_group w cr group objs
    = _align_text_group w cr (map fst (displayable w objs group)) objs.
Proof.
  intros w cr group objs. unfold _align_text_group.
  by rewrite displayable_of_displayed.
Qed.

(** ** The order of the groups in the dictionary *)

Lemma elem_of_buckets (d : Groups) (r : ref) :
  r ∈ concat (map snd d) <-> exists k group, (k, group) ∈ d /\ r ∈ group.
Proof.
  induction d as [|[k v] d IH]; simpl.
  - split; [intros H; by apply elem_of_nil in H|].
    intros (k & group & H & _). by apply elem_of_nil in H.
  - rewrite elem_of_app, IH. split.
    + intros [Hr|(k' & group & Hin & Hr)].
      * exists k, v. split; [apply elem_of_cons; by left|done].
      * exists k', group. split; [apply elem_of_cons; by right|done].
    + intros (k' & group & Hin & Hr). apply elem_of_cons in Hin as [E|Hin].
      * injection E as -> ->. by left.
      * right. eauto.
Qed.

Lemma dict_get_elem (d : Groups) k v :
  NoDup (map fst d) -> (dict_get k d = Some v <-> (k, v) ∈ d).
Proof.
  induction d as [|[k' v'] d IH]; simpl; intros Hnd.
  - split; [discriminate|]. intros H. by apply elem_of_nil in H.
  - apply NoDup_cons in Hnd as [Hk' Hnd]. rewrite elem_of_cons.
    destruct (decide (k = k')) as [->|Hne].
    + split.
      * intros E. injection E as ->. by left.
      * intros [E|Hin]; [by injection E as ->|].
        exfalso. apply Hk'. apply list_elem_of_fmap. by exists (k', v).
    + rewrite (IH Hnd). split; [by right|].
      intros [E|Hin]; [|done]. injection E as -> _. done.
Qed.

Lemma dict_get_permutation (d d' : Groups) k :
  NoDup (map fst d) -> d' ≡ₚ d -> dict_get k d' = dict_get k d.
Proof.
  intros Hnd Hperm.
  assert (Hnd' : NoDup (map fst d')) by by rewrite Hperm.
  destruct (dict_get k d) as [v|] eqn:E.
  - apply dict_get_elem; [done|]. rewrite Hperm. by apply dict_get_elem.
  - destruct (dict_get k d') as [v|] eqn:E'; [|done].
    apply dict_get_elem in E'; [|done]. rewrite Hperm in E'.
    apply dict_get_elem in E'; [|done]. congruence.
Qed.

(** X8: in a well-formed state the layout does not depend on the order in
    which the dictionary of groups yields its keys: two well-formed states
    with the same elements whose dictionaries are permutations of each
    other have the same elements, bounds included, after [update], and
    [update] returns in both. *)
Theorem update_independent_of_group_order :
  forall (w : World) (context : DrawContext) (self self' : EditableTextSupport),
    well_formed self = true ->
    well_formed self' = true ->
    objects self' = objects self ->
    _text_groups self' ≡ₚ _text_groups self ->
    fst (update w context self) = Ok tt
    /\ fst (update w context self') = Ok tt
    /\ objects (snd (update w context self'))
       = objects (snd (update w context self)).
Proof.
  intros w context self self' Hwf Hwf' Hobjs Hperm.
  rewrite (update_well_formed _ _ _ Hwf), (update_well_formed _ _ _ Hwf').
  split; [done|]. split; [done|]. cbn [snd with_objects objects].
  apply list_eq. intros r. rewrite !apply_writes_lookup.
  assert (Hkeys : NoDup (map fst (_text_groups self)))
    by by apply well_formed_unpack in Hwf as (? & _).
  assert (Hlast :
    last_write r (layout_writes w (cairo context) (_text_groups self') (objects self'))
    = last_write r (layout_writes w (cairo context) (_text_groups self) (objects self))).
  { destruct (decide (r ∈ concat (map snd (_text_groups self)))) as [Hin|Hnot].
    - apply elem_of_buckets in Hin as (k & group & Hin & Hr).
      apply dict_get_elem in Hin; [|done].
      rewrite (layout_writes_last_of _ _ _ _ _ _ Hwf Hin Hr).
      rewrite <- (dict_get_permutation _ _ k Hkeys Hperm) in Hin.
      rewrite (layout_writes_last_of _ _ _ _ _ _ Hwf' Hin Hr).
      by rewrite Hobjs.
    - rewrite (layout_writes_last_nowhere _ _ _ _ _ Hnot).
      apply layout_writes_last_nowhere. intros Hin. apply Hnot.
      apply elem_of_buckets in Hin as (k & group & Hin & Hr).
      apply elem_of_buckets. exists k, group. by rewrite <- Hperm. }
  by rewrite Hlast, Hobjs.
Qed.

(** ** Every state a host can reach *)

Lemma update_length w context self :
  List.length (objects (snd (update w context self)))
  = List.length (objects self).
Proof.
  destruct (update_objects w context self) as (ws & -> & _).
  by rewrite <- (length_fmap forget), forget_apply_writes, length_fmap.
Qed.

Lemma set_text_well_formed (r : ref) value self :
  well_formed self = true -> well_formed (snd (set_text r value self)) = true.
Proof.
  intros Hwf. unfold set_text. destruct (objects self !! r); [|done].
  cbn [snd]. apply well_formed_spec in Hwf as (H1 & H2 & H3 & H4).
  apply well_formed_spec. cbn [with_objects _text_groups _texts objects].
  rewrite length_insert. done.
Qed.

Lemma state_after_well_formed self (c : Call) :
  well_formed self = true -> well_formed (state_after self c) = true.
Proof.
  intros Hwf. destruct c; cbn [state_after]; try done.
  - by apply add_text_well_formed.
  - by apply set_text_well_formed.
  - by apply update_keeps_well_formed.
Qed.

Lemma add_text_store a style pattern f self :
  objects (snd (add_text a style pattern f self))
  = objects self ++ [TextElement__init__ a style pattern f]
  /\ _texts (snd (add_text a style pattern f self))
     = _texts self ++ [List.length (objects self)].
Proof.
  unfold add_text. destruct style as [o|]; [|done].
  by destruct (dict_get _ _).
Qed.

Lemma state_after_texts self (c : Call) :
  _texts self = seq 0 (List.length (objects self)) ->
  _texts (state_after self c) = seq 0 (List.length (objects (state_after self c))).
Proof.
  intros Hseq.
  destruct c as [a style pattern f|r value|w context|w x y|w context|];
    cbn [state_after]; try done.
  - destruct (add_text_store a style pattern f self) as [-> ->].
    rewrite length_app, Hseq. cbn [List.length]. by rewrite seq_app.
  - unfold set_text. destruct (objects self !! r); [|done].
    cbn [snd with_objects _texts objects]. by rewrite length_insert.
  - rewrite update_length.
    by destruct (update_objects w context self) as (_ & _ & -> & _).
Qed.

(** X3: after any sequence of calls on a new object (add_text with or
    without a style, text assignments, update, point, draw, texts) the
    state is well formed: the dictionary has the key None, no element is in
    two lists or twice in one, every reference is live; [texts()] lists
    every created element once, in the order of creation; and [update]
    returns without raising. *)
Theorem run_keeps_invariant :
  forall (calls : list Call),
    well_formed (run calls) = true
    /\ fst (texts (run calls)) = Ok (seq 0 (List.length (objects (run calls))))
    /\ (forall w context, fst (update w context (run calls)) = Ok tt).
Proof.
  intros calls.
  assert (H : well_formed (run calls) = true
              /\ _texts (run calls) = seq 0 (List.length (objects (run calls)))).
  { unfold run. induction calls as [|c calls IH] using rev_ind; [done|].
    rewrite fold_left_app. cbn [fold_left]. destruct IH as [IH1 IH2].
    split; [by apply state_after_well_formed | by apply state_after_texts]. }
  destruct H as [Hwf Hseq]. split; [done|]. split.
  - unfold texts. cbn [fst]. by rewrite Hseq.
  - intros w context. by rewrite (update_well_formed _ _ _ Hwf).
Qed.

(** ** The text setter *)

Lemma string_app_nil_r (s : string) : (s ++ "")%string = s.
Proof.
  induction s as [|c s IH]; [reflexivity|].
  change (String c (s ++ "")%string = String c s). by rewrite IH.
Qed.

Lemma py_mod_identity (v : Atom) (value : PyValue) :
  format_args value = [v] -> py_mod "%s" value = Ok (py_str v).
Proof.
  intros E. unfold py_mod. rewrite E.
  change (format_from "%s" [v])
    with (Ok ((py_str v ++ "")%string, @nil Atom)).
  by rewrite string_app_nil_r.
Qed.

(** X10: an element created without a pattern shows [str(value)]: assigning
    a single value, or a tuple of one item, stores its string form; a
    tuple of any other length raises TypeError and leaves the element as it
    was. *)
Theorem default_pattern_shows_value :
  forall (a : string) (style : option StyleOptions) (f : option (World -> bool)),
    let txt := TextElement__init__ a style None f in
    (forall v, _set_text (Single v) txt = (Ok tt, with_text (py_str v) txt))
    /\ (forall v, _set_text (Tuple [v]) txt = (Ok tt, with_text (py_str v) txt))
    /\ (forall args, List.length args <> 1%nat ->
          _set_text (Tuple args) txt = (Raise TypeError, txt)).
Proof.
  intros a style f txt. subst txt. unfold _set_text.
  change (_pattern (TextElement__init__ a style None f)) with "%s".
  split; [|split].
  - intros v. by rewrite (py_mod_identity v).
  - intros v. by rewrite (py_mod_identity v).
  - intros [|v [|v' args]] Hlen; [done|simpl in Hlen; lia|done].
Qed.

Lemma format_from_str (k : nat) :
  forall p n args,
    (String.length p <= k)%nat ->
    str_conversions p = Some n ->
    if decide (n <= List.length args)%nat
    then exists s, format_from p args = Ok (s, drop n args)
    else format_from p args = Raise TypeError.
Proof.
  induction k as [|k IH]; intros p n args Hlen Hc.
  - destruct p; simpl in *; [|lia]. injection Hc as <-.
    rewrite decide_True by lia. eauto.
  - destruct p as [|c p]; simpl in *.
    { injection Hc as <-. rewrite decide_True by lia. eauto. }
    destruct (Ascii.eqb c "%").
    + destruct p as [|c' rest]; [discriminate|]. simpl in Hlen.
      destruct (Ascii.eqb c' "%").
      * specialize (IH rest n args ltac:(lia) Hc).
        destruct (decide (n <= List.length args)%nat).
        -- destruct IH as [s ->]. simpl. eauto.
        -- by rewrite IH.
      * destruct (Ascii.eqb c' "s"); [|discriminate].
        destruct (str_conversions rest) as [m|] eqn:Em; [|discriminate].
        injection Hc as <-. destruct args as [|v args].
        { rewrite decide_False by (simpl; lia). done. }
        specialize (IH rest m args ltac:(lia) Em). simpl.
        destruct (decide (m <= List.length args)%nat).
        -- rewrite decide_True by lia. destruct IH as [s ->]. simpl. eauto.
        -- rewrite decide_False by lia. by rewrite IH.
    + specialize (IH p n args ltac:(lia) Hc).
      destruct (decide (n <= List.length args)%nat).
      * destruct IH as [s ->]. simpl. eauto.
      * by rewrite IH.
Qed.

(** X11: for a pattern whose conversions are all [%s] (and [%%]), the text
    assignment succeeds exactly when the value supplies as many arguments
    as the pattern has conversions; with more or with fewer it raises
    TypeError and the element is as before. *)
Theorem set_text_arity :
  forall (txt : TextElement) (value : PyValue) (n : nat),
    str_conversions (_pattern txt) = Some n ->
    (List.length (format_args value) = n ->
       exists s, _set_text value txt = (Ok tt, with_text s txt))
    /\ (List.length (format_args value) <> n ->
          _set_text value txt = (Raise TypeError, txt)).
Proof.
  intros txt value n Hc. unfold _set_text, py_mod.
  pose proof (format_from_str (String.length (_pattern txt)) (_pattern txt) n
                (format_args value) (Nat.le_refl _) Hc) as H.
  destruct (decide (n <= List.length (format_args value))%nat) as [Hle|Hgt].
  - destruct H as [s ->]. split.
    + intros E. rewrite drop_ge by lia. eauto.
    + intros Hne.
      destruct (drop n (format_args value)) as [|v rest] eqn:Ed; [|done].
      apply (f_equal List.length) in Ed. rewrite length_drop in Ed.
      simpl in Ed. lia.
  - rewrite H. split; [lia|done].
Qed.

(** ** A new element in the hit test *)

Lemma py_min_app (a : Q) (l l' : list Q) :
  py_min a (l ++ l') = py_min (py_min a l) l'.
Proof. unfold py_min. apply fold_left_app. Qed.

Lemma distances_after_add_text w pos (objs : list TextElement) texts new :
  (forall r : ref, r ∈ texts -> (r < List.length objs)%nat) ->
  distances w pos (objs ++ [new]) (texts ++ [List.length objs])
  = distances w pos objs texts
    ++ (if display w new
        then [distance_rectangle_point (_bounds new) pos] else []).
Proof.
  intros Hlive. unfold distances. rewrite omap_app. f_equal.
  - apply list_omap_ext. induction texts as [|r texts IH]; constructor.
    + rewrite lookup_app_l; [done|]. apply Hlive, elem_of_cons. by left.
    + apply IH. intros r' Hr'. apply Hlive, elem_of_cons. by right.
  - cbn [omap list_omap]. rewrite list_lookup_middle by done.
    by destruct (display w new).
Qed.

(** X12: an element takes part in the hit test from the moment it is
    created, with the bounds (0, 0, 10, 0) it has before any layout: in a
    well-formed state, after [add_text], whether it returned or raised,
    [point] returns the smaller of its value before the call and the
    distance to that rectangle when the new element is displayed, and its
    value before the call when it is not. *)
Theorem point_after_add_text :
  forall (w : World) (x y : Q) (a : string) (style : option StyleOptions)
         (pattern : option string) (f : option (World -> bool))
         (self : EditableTextSupport),
    well_formed self = true ->
    let new := TextElement__init__ a style pattern f in
    let after := snd (add_text a style pattern f self) in
    exists d : Q,
      fst (point w x y self) = Ok d
      /\ fst (point w x y after)
         = Ok (if display w new
               then Qmin d (distance_rectangle_point
                              {| x0 := 0; y0 := 0; width := 10; height := 0 |}
                              (x, y))
               else d).
Proof.
  intros w x y a style pattern f self Hwf new after.
  eexists. split; [reflexivity|]. subst after. unfold point. cbn [fst].
  destruct (add_text_store a style pattern f self) as [-> ->]. fold new.
  rewrite distances_after_add_text, py_min_app.
  - destruct (display w new); [|reflexivity].
    destruct style; reflexivity.
  - apply well_formed_spec in Hwf as (_ & _ & _ & Hlive).
    intros r Hr. apply Hlive, elem_of_app. by right.
Qed.

(** ** The horizontal span of a stack *)

Lemma py_max_ge_init (a : Q) (l : list Q) : (a <= py_max a l)%Q.
Proof.
  revert a. induction l as [|q l IH]; intros a; simpl; [apply Qle_refl|].
  eapply Qle_trans; [apply Q.le_max_l | apply IH].
Qed.

Lemma py_max_ge_elem (a : Q) (l : list Q) (q : Q) :
  q ∈ l -> (q <= py_max a l)%Q.
Proof.
  revert a. induction l as [|q' l IH]; intros a Hin.
  - by apply elem_of_nil in Hin.
  - apply elem_of_cons in Hin as [->|Hin]; simpl.
    + eapply Qle_trans; [apply Q.le_max_r | apply py_max_ge_init].
    + by apply IH.
Qed.

Lemma centred_within (x bw dw : Q) :
  (dw <= bw)%Q ->
  (x <= x + (bw - dw) / 2)%Q /\ (x + (bw - dw) / 2 + dw <= x + bw)%Q.
Proof.
  intros H.
  assert (H0 : (0 <= (bw - dw) / 2)%Q).
  { apply Qle_shift_div_l; [reflexivity|]. lra. }
  assert (H1 : ((bw - dw) / 2 <= bw - dw)%Q).
  { apply Qle_shift_div_r; [reflexivity|]. lra. }
  set (h := ((bw - dw) / 2)%Q) in *. clearbody h. split; lra.
Qed.

(** X14: in a well-formed state, after [update] every displayed element of
    a named group lies within the horizontal span of the floored group box:
    [boxX <= x0] and [x0 + width <= boxX + W], where [boxX] is the x
    position the alignment function returned and [W] the floored width. *)
Theorem stacked_texts_within_box :
  forall (w : World) (context : DrawContext) (self : EditableTextSupport)
         (g : string) (group : list ref)
         (first : ref * TextElement) (others : list (ref * TextElement)),
    well_formed self = true ->
    dict_get (Some g) (_text_groups self) = Some group ->
    displayable w (objects self) group = first :: others ->
    let measure := fun p : ref * TextElement =>
                     text_extents (cairo context) (_text (snd p)) in
    let extents := group_extents (measure first) (map measure others) in
    let W := fst (floor_extents extents) in
    let boxX := fst (text_align w extents (Style.text_align (_style (snd first)))
                       (Style.text_padding (_style (snd first)))
                       (Style.text_outside (_style (snd first)))) in
    forall (r : ref) (txt : TextElement),
      (r, txt) ∈ first :: others ->
      exists txt',
        objects (snd (update w context self)) !! r = Some txt'
        /\ (boxX <= x0 (_bounds txt'))%Q
        /\ (x0 (_bounds txt') + width (_bounds txt') <= boxX + W)%Q.
Proof.
  intros w context self g group first others Hwf Hg Hdisp measure extents W boxX
         r txt Hin.
  assert (Hdw : (fst (measure (r, txt)) <= W)%Q).
  { subst W extents. unfold floor_extents, group_extents. cbn [fst].
    eapply Qle_trans; [|apply Q.le_max_l].
    apply elem_of_cons in Hin as [<-|Hin]; [apply py_max_ge_init|].
    apply py_max_ge_elem. rewrite map_map.
    apply list_elem_of_fmap. by exists (r, txt). }
  rewrite (update_well_formed _ _ _ Hwf). cbn [snd with_objects objects].
  rewrite <- Hdisp in Hin.
  pose proof Hin as Hin'. apply elem_of_displayable in Hin' as (Hr & Hl & Hd).
  rewrite apply_writes_lookup, (layout_writes_last _ _ _ _ _ _ Hwf Hg Hr), Hl.
  assert (Hnd : NoDup (map fst (displayable w (objects self) group))).
  { apply NoDup_displayable. apply well_formed_unpack in Hwf as (_ & _ & Hcat).
    by eapply dict_get_NoDup. }
  unfold group_writes. subst boxX W extents. rewrite Hdisp in *.
  fold measure. fold measure in Hdw.
  destruct (floor_extents _) as [bw bh].
  destruct (text_align _ _ _ _ _) as [x y]. cbn [fst] in *.
  rewrite combine_measure.
  destruct (stack_writes_last x y bw
              (map (fun a => (fst a, measure a)) (first :: others)) 0 r
              (fst (measure (r, txt))) (snd (measure (r, txt)))) as [dy' ->].
  - by rewrite map_map.
  - apply list_elem_of_fmap. exists (r, txt). split; [|done].
    by destruct (measure (r, txt)).
  - eexists. split; [reflexivity|].
    cbn [_bounds with_bounds x0 width]. by apply centred_within.
Qed.

End Coverage.

(* ================================================================== *)
(** * The model at concrete inputs *)

(** C1 (as the code behaves): the group of the scenario, a 10 by 8 and a
    14 by 6 text, has the extents (14, 14) and the floored box (15, 14).
    The alignment function is given the extents (14, 14), not the floored
    box: the probing host answers with what it was given, and the texts are
    placed from x = 14, y = 14 while they are centred in the floored width
    15.  The ungrouped pass gives the alignment function the floored
    extents: a single 10 by 8 text is placed at (15, 10). *)
Theorem group_anchor_gets_unfloored_extents :
  let context := plain_context probe_host scenario_font in
  map _bounds
    (objects (snd (update (host := probe_host) true context (class_texts probe_host))))
  = [ {| x0 := 14 + (15 - 10) / 2; y0 := 14 + 0; width := 10; height := 8 |};
      {| x0 := 14 + (15 - 14) / 2; y0 := 14 + (0 + (8 + 3));
         width := 14; height := 6 |} ]%Q
  /\ map _bounds
       (objects (snd (update (host := probe_host) true context (single_text probe_host))))
     = [ {| x0 := 15; y0 := 10; width := 15; height := 10 |} ]%Q.
Proof. split; vm_compute; reflexivity. Qed.

(** C6, the claim as stated fails: the only displayed element is 20000
    away from the point (20010, 0), and [point] returns 10000. *)
Lemma point_not_min_over_displayed :
  distances (host := item_host) true (20010, 0)%Q
    (objects (single_text item_host)) (_texts (single_text item_host))
  = [20000%Q]
  /\ fst (point (host := item_host) true 20010 0 (single_text item_host))
     = Ok 10000%Q
  /\ ~ (10000 == 20000)%Q.
Proof. split; [reflexivity|]. split; [reflexivity|]. intros H. discriminate H. Qed.

Lemma set_text_witness :
  _set_text (Single (PyInt 5)) items_text = (Ok tt, with_text "5 items" items_text)
  /\ exists e, _set_text (Tuple [PyInt 5; PyInt 6]) items_text = (Raise e, items_text).
Proof.
  split.
  - apply (set_text_formats_or_keeps items_text (Single (PyInt 5))). reflexivity.
  - apply (proj1 (proj2 (proj2
             (set_text_formats_or_keeps items_text (Tuple [PyInt 5; PyInt 6]))))
             1%nat).
    + reflexivity.
    + simpl. lia.
Defined.

Lemma point_min_witness :
  fst (point (host := item_host) false 3 4 guard_texts) = Ok 10000%Q.
Proof.
  destruct (point_min_of_sentinel_and_displayed (host := item_host)
              false 3 4 guard_texts) as (d & Hp & _ & _ & _ & Hnone).
  rewrite Hp. simpl. f_equal. apply Hnone.
  intros r txt Hr Hl.
  apply elem_of_cons in Hr as [->|Hr];
    [|apply elem_of_cons in Hr as [->|Hr]; [|by apply elem_of_nil in Hr]];
    injection Hl as <-; reflexivity.
Defined.

Lemma point_capped_witness :
  fst (point (host := item_host) true 20010 0 (single_text item_host)) = Ok 10000%Q.
Proof.
  destruct (point_capped_at_sentinel (host := item_host)
              true 20010 0 (single_text item_host)) as (d & Hp & _ & Hfar).
  rewrite Hp. f_equal. apply Hfar.
  intros r txt Hr Hl _.
  apply elem_of_cons in Hr as [->|Hr]; [|by apply elem_of_nil in Hr].
  injection Hl as <-. vm_compute. discriminate.
Defined.

Lemma hidden_texts_witness :
  let context := plain_context item_host scenario_font in
  objects (snd (update (host := item_host) false context guard_texts)) !! 0%nat
  = objects guard_texts !! 0%nat
  /\ objects (snd (update (host := item_host) false context guard_texts)) !! 1%nat
     = objects guard_texts !! 1%nat.
Proof.
  intros context.
  destruct (bounds_written_only_by_layout (host := item_host)
              false context guard_texts) as (_ & _ & Hhid & Hgroup).
  split.
  - apply (Hgroup "guard" [0; 1]%nat); [reflexivity|reflexivity|].
    apply elem_of_cons. by left.
  - rewrite (Hhid 1%nat (TextElement__init__ (host := item_host) "guard.value"
                           (Some (in_group "guard")) None (Some (fun w : bool => w))));
      reflexivity.
Defined.

(** C4, the claim as stated fails in the program's arithmetic: for three
    stacked texts 5.1, 5.2 and 5.3 high in a box anchored at y = 2, binary64
    gives b.y0 + b.height + 3 = 18.300000000000001 and
    c.y0 = 18.299999999999997, so [b.y0 + b.height + 3 == c.y0] is false
    (while [a.y0 + a.height + 3 == b.y0] is true). *)
Lemma stacked_spacing_fails_in_binary64 :
  match Binary64.three_lines with
  | [a; b; c] => Binary64.spaced a b = true /\ Binary64.spaced b c = false
  | _ => False
  end.
Proof. vm_compute. split; reflexivity. Qed.

Lemma stacked_texts_offsets_witness :
  let context := plain_context item_host scenario_font in
  let after := snd (update (host := item_host) true context (three_texts item_host)) in
  exists ta' tb' tc',
    objects after !! 0%nat = Some ta'
    /\ objects after !! 1%nat = Some tb'
    /\ objects after !! 2%nat = Some tc'
    /\ height (_bounds ta') = 8%Q
    /\ height (_bounds tb') = 6%Q
    /\ y0 (_bounds ta') = (2 + 0)%Q
    /\ y0 (_bounds tb') = (2 + (0 + (height (_bounds ta') + 3)))%Q
    /\ y0 (_bounds tc')
       = (2 + (0 + (height (_bounds ta') + 3) + (height (_bounds tb') + 3)))%Q.
Proof.
  intros context after.
  destruct (stacked_texts_offsets (host := item_host) true context
              (three_texts item_host) "name" 0 1 2 _ _ _
              eq_refl eq_refl eq_refl eq_refl eq_refl eq_refl eq_refl eq_refl)
    as (ta' & tb' & tc' & _ & Ha & Hb & Hc & Hha & Hhb & _ & Hya & Hyb & Hyc).
  exists ta', tb', tc'. repeat split; assumption.
Defined.

Lemma stacked_texts_centered_witness :
  let context := plain_context item_host scenario_font in
  let after := snd (update (host := item_host) true context (class_texts item_host)) in
  exists txt',
    objects after !! 1%nat = Some txt'
    /\ x0 (_bounds txt') = ((100 - 14) / 2 + (15 - 14) / 2)%Q
    /\ width (_bounds txt') = 14%Q
    /\ height (_bounds txt') = 6%Q.
Proof.
  intros context after.
  destruct (stacked_texts_centered (host := item_host) true context
              (class_texts item_host) "name" [0; 1]%nat _ _
              eq_refl eq_refl eq_refl) as [_ Hall].
  destruct (Hall 1%nat
              (with_text "{abstract}"
                 (TextElement__init__ (host := item_host) "abstract"
                    (Some (in_group "name")) None None)))
    as (txt' & Hl & Hx & Hw & Hh).
  - apply elem_of_cons. right. apply elem_of_cons. by left.
  - exists txt'. repeat split; assumption.
Defined.

Lemma update_idempotent_witness :
  let context := plain_context item_host scenario_font in
  update (host := item_host) false context
    (snd (update (host := item_host) true context (class_texts item_host)))
  = update (host := item_host) true context (class_texts item_host).
Proof.
  intros context.
  apply (update_idempotent (host := item_host) true false context context).
  - intros r txt Hl.
    destruct r as [|[|r]]; [| |discriminate Hl]; injection Hl as <-; reflexivity.
  - reflexivity.
  - reflexivity.
Defined.

Lemma ungrouped_text_floored_witness :
  let context := plain_context item_host scenario_font in
  exists txt',
    objects (snd (update (host := item_host) true context (single_text item_host)))
      !! 0%nat = Some txt'
    /\ _bounds txt' = {| x0 := (100 - 15) / 2; y0 := 2; width := 15; height := 10 |}%Q.
Proof.
  intros context.
  destruct (ungrouped_text_floored (host := item_host) true context
              (single_text item_host) [0%nat] 0%nat _
              eq_refl eq_refl ltac:(apply elem_of_cons; by left) eq_refl eq_refl)
    as (txt' & Hl & Hb & _).
  exists txt'. split; [exact Hl|exact Hb].
Defined.

Lemma ungrouped_texts_not_stacked_witness :
  let context := plain_context item_host scenario_font in
  exists t1' t2',
    objects (snd (update (host := item_host) true context pair_texts)) !! 0%nat
    = Some t1'
    /\ objects (snd (update (host := item_host) true context pair_texts)) !! 1%nat
       = Some t2'
    /\ _bounds t1' = _bounds t2'.
Proof.
  intros context.
  apply (ungrouped_texts_not_stacked (host := item_host) true context pair_texts
           [0; 1]%nat 0%nat 1%nat _ _ eq_refl eq_refl
           ltac:(apply elem_of_cons; by left)
           ltac:(apply elem_of_cons; right; apply elem_of_cons; by left)
           eq_refl eq_refl eq_refl eq_refl eq_refl eq_refl).
Defined.

Lemma stacked_neighbours_spacing_witness :
  let context := plain_context item_host scenario_font in
  let after := snd (update (host := item_host) false context mixed_texts) in
  exists ta' tb',
    objects after !! 0%nat = Some ta'
    /\ objects after !! 2%nat = Some tb'
    /\ height (_bounds ta') = 6%Q
    /\ y0 (_bounds ta') = (2 + 0)%Q
    /\ y0 (_bounds tb') = (2 + (0 + (height (_bounds ta') + 3)))%Q.
Proof.
  intros context after.
  apply (stacked_neighbours_spacing (host := item_host) false context mixed_texts
           "name" [0; 1; 2]%nat _ _ [] [] 0%nat 2%nat _ _
           eq_refl eq_refl eq_refl eq_refl).
Defined.

Lemma stacked_texts_within_box_witness :
  let context := plain_context item_host scenario_font in
  let after := snd (update (host := item_host) true context (class_texts item_host)) in
  exists txt',
    objects after !! 0%nat = Some txt'
    /\ ((100 - 14) / 2 <= x0 (_bounds txt'))%Q
    /\ (x0 (_bounds txt') + width (_bounds txt') <= (100 - 14) / 2 + 15)%Q.
Proof.
  intros context after.
  apply (stacked_texts_within_box (host := item_host) true context
           (class_texts item_host) "name" [0; 1]%nat _ _
           eq_refl eq_refl eq_refl 0%nat
           (with_text "ClassName"
              (TextElement__init__ (host := item_host) "name"
                 (Some (in_group "name")) None None))).
  apply elem_of_cons. by left.
Defined.

Lemma update_independent_of_group_order_witness :
  let context := plain_context item_host scenario_font in
  objects (snd (update (host := item_host) true context item_texts_reordered))
  = objects (snd (update (host := item_host) true context item_texts)).
Proof.
  intros context.
  apply (update_independent_of_group_order (host := item_host) true context
           item_texts item_texts_reordered eq_refl eq_refl eq_refl).
  apply perm_swap.
Defined.

Lemma set_text_arity_witness :
  (exists s, _set_text (Single (PyStr "open")) items_text
             = (Ok tt, with_text s items_text))
  /\ _set_text (Tuple [PyStr "a"; PyStr "b"]) items_text
     = (Raise TypeError, items_text).
Proof.
  split.
  - apply (set_text_arity items_text (Single (PyStr "open")) 1); reflexivity.
  - apply (set_text_arity items_text (Tuple [PyStr "a"; PyStr "b"]) 1);
      [reflexivity|]. simpl. lia.
Defined.

Lemma point_after_add_text_witness :
  exists d : Q,
    fst (point (host := item_host) true 30 0 item_texts) = Ok d
    /\ fst (point (host := item_host) true 30 0
              (snd (add_text (host := item_host) "extra" None None None item_texts)))
       = Ok (Qmin d (gap_distance {| x0 := 0; y0 := 0; width := 10; height := 0 |}
                       (30, 0)%Q)).
Proof.
  apply (point_after_add_text (host := item_host) true 30 0 "extra" None None None
           item_texts eq_refl).
Defined.
